(** * Computer Graphics From Scratch, chapter 2: canvas and ray tracer

    A shallow embedding of [Chapter2/lib/canvas.cpp],
    [Chapter2/lib/raytracing.cpp] and the rendering loop of
    [Chapter2/main.cpp], together with the properties their specification
    states about them and further properties of the code.

    - C++ [float] is IEEE-754 binary32.  It is embedded with the executable
      reference semantics of the standard library ([spec_float] with
      precision 24 and maximal exponent 128), so that every operation rounds,
      overflows and produces NaN as the hardware does.  Every operation is
      rounded on its own (no fused multiply-add), and [sqrt] on a [float]
      is the [float] overload that [<cmath>] provides.
    - [std::string] is embedded as [string]; [std::to_string] on an [int]
      prints its decimal digits.
    - C++ [int] is embedded in [Z]; [/] on [int] truncates ([Z.quot]).
      Signed overflow has no defined result in C++ and is not given one here.
    - The raylib render texture is embedded as the history of the draw calls
      the canvas issued on it. *)

From Stdlib Require Import ZArith List Bool Lia.
From Stdlib Require Import Sorting.Permutation QArith Qpower Qabs Lqa.
From Stdlib Require Strings.String Strings.Ascii.
From Stdlib Require Numbers.DecimalString Numbers.DecimalZ.
From Stdlib Require Import Floats.SpecFloat.
Import ListNotations String.StringSyntax.
Local Open Scope Z_scope.
Delimit Scope string_scope with string.

(** ** Binary32 arithmetic *)

Module Float32.

Definition prec : Z := 24.
Definition emax : Z := 128.

Definition float : Type := spec_float.

Definition add : float -> float -> float := SFadd prec emax.
Definition sub : float -> float -> float := SFsub prec emax.
Definition mul : float -> float -> float := SFmul prec emax.
Definition div : float -> float -> float := SFdiv prec emax.
Definition sqrt : float -> float := SFsqrt prec emax.
Definition neg : float -> float := SFopp.

Definition ltb : float -> float -> bool := SFltb.
Definition leb : float -> float -> bool := SFleb.
Definition eqb : float -> float -> bool := SFeqb.

(** [static_cast<float>(n)] and integer literals in float expressions. *)
Definition of_int (n : Z) : float := binary_normalize prec emax n 0 false.

(** [std::numeric_limits<float>::infinity()] *)
Definition infinity : float := S754_infinity false.

Definition zero : float := S754_zero false.

Definition is_nan (f : float) : bool :=
  match f with S754_nan => true | _ => false end.

Definition is_zero (f : float) : bool :=
  match f with S754_zero _ => true | _ => false end.



(** The comparison of two floats that are not NaN is the lexicographic
    comparison of their ranks. *)
Definition rank (f : float) : Z * Z * Z :=
  match f with
  | S754_infinity true => (-2, 0, 0)
  | S754_finite true m e => (-1, - e, - Zpos m)
  | S754_zero _ => (0, 0, 0)
  | S754_finite false m e => (1, e, Zpos m)
  | S754_infinity false => (2, 0, 0)
  | S754_nan => (3, 0, 0)
  end.

Definition lex_lt (p q : Z * Z * Z) : Prop :=
  let '(a, b, c) := p in
  let '(a', b', c') := q in
  a < a' \/ (a = a' /\ (b < b' \/ (b = b' /\ c < c'))).


End Float32.

Declare Scope f32_scope.
Delimit Scope f32_scope with f32.
Infix "+" := Float32.add : f32_scope.
Infix "-" := Float32.sub : f32_scope.
Infix "*" := Float32.mul : f32_scope.
Infix "/" := Float32.div : f32_scope.
Notation "- x" := (Float32.neg x) : f32_scope.
Infix "<?" := Float32.ltb : f32_scope.
Infix "<=?" := Float32.leb : f32_scope.
Infix "=?" := Float32.eqb : f32_scope.

(** ** Vocabulary for the rounding of binary32

    [binary_round_aux] rounds a non-negative quantity given as a mantissa,
    an exponent and the location of the quantity between the mantissa and
    its successor.  The definitions below describe that quantity with
    integers only. *)

Module Rounding.

Import Float32.

(** The sticky quotient: twice the quotient of [a] by [b], plus one when
    the division is not exact. *)
Definition stq (a b : Z) : Z := 2 * (a / b) + (if a mod b =? 0 then 0 else 1).

(** Rounding to nearest, ties to even, of a quantity given in quarters:
    [4 m] stands for [m], [4 m + 1] for a point below [m + 1/2],
    [4 m + 2] for [m + 1/2] and [4 m + 3] for a point above. *)
Definition rne (P : Z) : Z :=
  let m := P / 4 in
  let c := P mod 4 in
  if c <=? 1 then m
  else if c =? 2 then (if Z.even m then m else m + 1)
  else m + 1.

Definition loc_code (l : location) : Z :=
  match l with
  | loc_Exact => 0
  | loc_Inexact Lt => 1
  | loc_Inexact Eq => 2
  | loc_Inexact Gt => 3
  end.

Definition rec_code (mrs : shr_record) : Z :=
  4 * shr_m mrs + (if shr_r mrs then 2 else 0) + (if shr_s mrs then 1 else 0).

(** The second half of [binary_round_aux]: round the quantity [P], given
    in quarters of [2^E], and renormalise. *)
Definition finish (s : bool) (E P : Z) : float :=
  let m1 := rne P in
  let E2 := Z.max E (fexp prec emax (Zdigits2 m1 + E)) in
  match m1 / 2 ^ (E2 - E) with
  | Z0 => S754_zero s
  | Zpos p => if E2 <=? emax - prec then S754_finite s p E2 else S754_infinity s
  | Zneg _ => S754_nan
  end.

(** The exponent binary32 gives [(A / b) * 2^c], and that quantity in
    quarters of two to that exponent. *)
Definition cexp (A b c : Z) : Z := fexp prec emax (Zdigits2 (A / b) + c).

Definition cman (A b c : Z) : Z := stq (2 * A) (b * 2 ^ (cexp A b c - c)).

(** A float with the sign [s]. *)
Definition sign_is (s : bool) (f : float) : Prop :=
  match f with
  | S754_zero s' | S754_finite s' _ _ | S754_infinity s' => s' = s
  | S754_nan => False
  end.

(** A zero, a positive float or [+infinity]. *)
Definition nonneg (f : float) : Prop :=
  match f with
  | S754_zero _ | S754_finite false _ _ | S754_infinity false => True
  | _ => False
  end.

(** The order of the values of two such floats whose mantissas have at
    most 24 bits, and 24 bits as soon as there is a float below them. *)
Definition ple (x y : float) : Prop :=
  match x, y with
  | S754_zero _, (S754_zero _ | S754_finite false _ _ | S754_infinity false) => True
  | S754_finite false m e, S754_finite false m' e' =>
      (e = e' /\ Z.pos m <= Z.pos m')
      \/ (e < e' /\ Z.pos m < 2 ^ 24 <= 2 * Z.pos m')
  | S754_finite false _ _, S754_infinity false => True
  | S754_infinity false, S754_infinity false => True
  | _, _ => False
  end.

(** The same order on all floats that are not NaN. *)
Definition ord (x y : float) : Prop :=
  ple x y \/ ple (neg y) (neg x) \/ (nonneg (neg x) /\ nonneg y).

End Rounding.

(** ** The parts of raylib and raymath the program uses *)

Module raylib.

Import Float32.

(** [struct Color { unsigned char r, g, b, a; }] *)
Record Color : Type := mkColor { r : Z; g : Z; b : Z; a : Z }.

(** [WHITE] and [BLACK] of [raylib.h]. *)
Definition WHITE : Color := mkColor 255 255 255 255.
Definition BLACK : Color := mkColor 0 0 0 255.

(** [struct Vector3 { float x, y, z; }] *)
Record Vector3 : Type := mkVector3 { x : float; y : float; z : float }.

(** [Vector3Subtract] and [Vector3DotProduct] of [raymath.h]. *)
Definition Vector3Subtract (v1 v2 : Vector3) : Vector3 :=
  mkVector3 (x v1 - x v2)%f32 (y v1 - y v2)%f32 (z v1 - z v2)%f32.

Definition Vector3DotProduct (v1 v2 : Vector3) : float :=
  (x v1 * x v2 + y v1 * y v2 + z v1 * z v2)%f32.

(** A draw call issued between [BeginTextureMode] and [EndTextureMode]. *)
Inductive DrawCall : Type :=
| ClearBackground (color : Color)
| DrawPixel (posX posY : Z) (color : Color).

(** A render texture: its size and the draw calls it received, the most
    recent one first. *)
Record RenderTexture2D : Type := mkRenderTexture2D
  { tex_width : Z; tex_height : Z; tex_calls : list DrawCall }.

Definition LoadRenderTexture (w h : Z) : RenderTexture2D :=
  mkRenderTexture2D w h [].

Definition draw (call : DrawCall) (t : RenderTexture2D) : RenderTexture2D :=
  mkRenderTexture2D (tex_width t) (tex_height t) (call :: tex_calls t).

(** The colour the draw calls leave at one texel; [None] where nothing was
    drawn since the texture was loaded. *)
Fixpoint texel_of (calls : list DrawCall) (px py : Z) : option Color :=
  match calls with
  | [] => None
  | ClearBackground c :: _ => Some c
  | DrawPixel qx qy c :: rest =>
      if (qx =? px) && (qy =? py) then Some c else texel_of rest px py
  end.

Definition texel (t : RenderTexture2D) (px py : Z) : option Color :=
  if (0 <=? px) && (px <? tex_width t) && (0 <=? py) && (py <? tex_height t)
  then texel_of (tex_calls t) px py
  else None.

(** How many pixels were drawn on the texture so far. *)
Fixpoint pixel_writes (calls : list DrawCall) : nat :=
  match calls with
  | [] => O
  | ClearBackground _ :: rest => pixel_writes rest
  | DrawPixel _ _ _ :: rest => S (pixel_writes rest)
  end.

End raylib.

(** ** [namespace graphics] *)

Module graphics.

Import Float32 raylib.

(** *** [class Canvas] *)

Record Canvas : Type := mkCanvas
  { CanvasWidth : Z;
    CanvasHeight : Z;
    ViewWidth : float;
    ViewHeight : float;
    Distance : float;
    background : Color;
    renderTexture : RenderTexture2D }.

(** The constructor leaves the viewport and the background uninitialised:
    whatever they hold is passed in. *)
Definition Canvas_new (w h : Z) (vw vh d : float) (bg : Color) : Canvas :=
  mkCanvas w h vw vh d bg (draw (ClearBackground WHITE) (LoadRenderTexture w h)).

Definition SetViewPort (this : Canvas) (Vx Vy d : float) : Canvas :=
  mkCanvas (CanvasWidth this) (CanvasHeight this) Vx Vy d
           (background this) (renderTexture this).

Definition GetWidth (this : Canvas) : Z := CanvasWidth this.
Definition GetHeight (this : Canvas) : Z := CanvasHeight this.
Definition GetBackground (this : Canvas) : Color := background this.

Definition IsInBounds (this : Canvas) (x y : Z) : bool :=
  (x >=? 0) && (x <? CanvasWidth this) && (y >=? 0) && (y <? CanvasHeight this).

Definition IsInBoundsCentered (this : Canvas) (x y : Z) : bool :=
  (x >=? Z.quot (- CanvasWidth this) 2) && (x <? Z.quot (CanvasWidth this) 2)
  && (y >=? Z.quot (- CanvasHeight this) 2) && (y <? Z.quot (CanvasHeight this) 2).

Definition PutPixel (this : Canvas) (x y : Z) (color : Color) : Canvas :=
  if IsInBounds this x y then
    mkCanvas (CanvasWidth this) (CanvasHeight this)
             (ViewWidth this) (ViewHeight this) (Distance this)
             (background this)
             (draw (DrawPixel x y color) (renderTexture this))
  else this.

Definition PutPixelCentered (this : Canvas) (x y : Z) (color : Color) : Canvas :=
  let screenX := Z.quot (CanvasWidth this) 2 + x in
  let screenY := Z.quot (CanvasHeight this) 2 - y in
  PutPixel this screenX screenY color.

Definition CanvasToViewPort (this : Canvas) (x y : Z) : Vector3 :=
  mkVector3
    (of_int x * ViewWidth this / of_int (CanvasWidth this))%f32
    (- (of_int y * ViewHeight this / of_int (CanvasHeight this)))%f32
    (Distance this).

Definition Clear (this : Canvas) (color : Color) : Canvas :=
  mkCanvas (CanvasWidth this) (CanvasHeight this)
           (ViewWidth this) (ViewHeight this) (Distance this)
           color
           (draw (ClearBackground color) (renderTexture this)).

(** *** [ColorToString] *)

(** [std::to_string] on an [int]. *)
Definition to_string (n : Z) : String.string :=
  DecimalString.NilZero.string_of_int (Z.to_int n).

(** [+] on [std::string]. *)
Local Infix "+s" := String.append (at level 50, left associativity).

Definition ColorToString (color : Color) : String.string :=
  if (r color =? 255) && (g color =? 0) && (b color =? 0) then "RED"%string
  else if (r color =? 0) && (g color =? 255) && (b color =? 0) then "GREEN"%string
  else if (r color =? 0) && (g color =? 0) && (b color =? 255) then "BLUE"%string
  else if (r color =? 255) && (g color =? 255) && (b color =? 255) then "WHITE"%string
  else if (r color =? 0) && (g color =? 0) && (b color =? 0) then "BLACK"%string
  else if (r color =? 255) && (g color =? 255) && (b color =? 0) then "YELLOW"%string
  else
    ("RGBA(" +s to_string (r color) +s "," +s to_string (g color) +s ","
     +s to_string (b color) +s "," +s to_string (a color) +s ")")%string.

(** *** Runs of calls on one canvas *)

(** A call of one of the methods of [Canvas] that change it. *)
Inductive CanvasCall : Type :=
| CallSetViewPort (Vx Vy d : float)
| CallPutPixel (x y : Z) (color : Color)
| CallPutPixelCentered (x y : Z) (color : Color)
| CallClear (color : Color).

Definition call (this : Canvas) (c : CanvasCall) : Canvas :=
  match c with
  | CallSetViewPort Vx Vy d => SetViewPort this Vx Vy d
  | CallPutPixel x y color => PutPixel this x y color
  | CallPutPixelCentered x y color => PutPixelCentered this x y color
  | CallClear color => Clear this color
  end.

Definition run_calls (this : Canvas) (l : list CanvasCall) : Canvas :=
  fold_left call l this.

(** Every pixel drawn on the texture lies inside a [w] by [h] rectangle. *)
Fixpoint writes_within (w h : Z) (calls : list DrawCall) : Prop :=
  match calls with
  | [] => True
  | ClearBackground _ :: rest => writes_within w h rest
  | DrawPixel qx qy _ :: rest =>
      (0 <= qx < w /\ 0 <= qy < h) /\ writes_within w h rest
  end.

(** The size of the canvas, which no method changes, and the size of its
    texture. *)
Definition sized (w h : Z) (this : Canvas) : Prop :=
  CanvasWidth this = w /\ CanvasHeight this = h
  /\ tex_width (renderTexture this) = w /\ tex_height (renderTexture this) = h.

(** What every run of calls keeps: the size, every pixel drawn inside of it,
    and a colour at every place. *)
Definition well_drawn (w h : Z) (this : Canvas) : Prop :=
  sized w h this
  /\ writes_within w h (tex_calls (renderTexture this))
  /\ forall px py, texel_of (tex_calls (renderTexture this)) px py <> None.

(** *** [struct Sphere] and [class Raytracer] *)

Record Sphere : Type := mkSphere
  { center : Vector3; radius : float; color : Color }.

(** The raytracer owns its spheres, [Sphere spheres[5]], kept as a list so
    that the properties can speak of any scene.  The canvas it refers to
    lives outside of it and is handed to the methods that read it. *)
Record Raytracer : Type := mkRaytracer { spheres : list Sphere }.

Definition vec (a b c : Z) : Vector3 := mkVector3 (of_int a) (of_int b) (of_int c).

(** The constructor. *)
Definition Raytracer_new : Raytracer :=
  mkRaytracer
    [ mkSphere (vec 0 (-1) 3) (of_int 1) (mkColor 255 0 0 255);
      mkSphere (vec (-2) 0 4) (of_int 1) (mkColor 0 255 0 255);
      mkSphere (vec 2 0 4) (of_int 1) (mkColor 0 0 255 255);
      mkSphere (vec 0 (-5001) 0) (of_int 5000) (mkColor 255 255 0 255);
      mkSphere (vec 0 2 3) (of_int 1) BLACK ].

(** The coefficients of the quadratic, as [IntersectRaySphere] computes
    them. *)
Definition quad_k1 (direction : Vector3) : float :=
  Vector3DotProduct direction direction.

Definition quad_k2 (origin direction : Vector3) (sphere : Sphere) : float :=
  (of_int 2 * Vector3DotProduct (Vector3Subtract origin (center sphere)) direction)%f32.

Definition quad_k3 (origin : Vector3) (sphere : Sphere) : float :=
  let oc := Vector3Subtract origin (center sphere) in
  (Vector3DotProduct oc oc - radius sphere * radius sphere)%f32.

Definition discriminant_of (k1 k2 k3 : float) : float :=
  (k2 * k2 - of_int 4 * k1 * k3)%f32.

Definition IntersectRaySphere (origin direction : Vector3) (sphere : Sphere)
  : float * float :=
  let oc := Vector3Subtract origin (center sphere) in
  let k1 := Vector3DotProduct direction direction in
  let k2 := (of_int 2 * Vector3DotProduct oc direction)%f32 in
  let k3 := (Vector3DotProduct oc oc - radius sphere * radius sphere)%f32 in
  let discriminant := (k2 * k2 - of_int 4 * k1 * k3)%f32 in
  if (discriminant <? zero)%f32 then (infinity, infinity)
  else
    let t1 := ((- k2 + sqrt discriminant) / (of_int 2 * k1))%f32 in
    let t2 := ((- k2 - sqrt discriminant) / (of_int 2 * k1))%f32 in
    (t1, t2).

(** One round of the loop of [TraceRay]: the state is [closest_t] and
    [closest_sphere] (the sphere pointed at, [None] for [nullptr]). *)
Definition scan (origin direction : Vector3) (t_min t_max : float)
           (st : float * option Sphere) (sphere : Sphere)
  : float * option Sphere :=
  let '(fst_, snd_) := IntersectRaySphere origin direction sphere in
  let st1 :=
    if (fst_ <? fst st)%f32 && (t_min <? fst_)%f32 && (fst_ <? t_max)%f32
    then (fst_, Some sphere) else st in
  if (snd_ <? fst st1)%f32 && (t_min <? snd_)%f32 && (snd_ <? t_max)%f32
  then (snd_, Some sphere) else st1.

Definition closest (this : Raytracer) (origin direction : Vector3)
           (t_min t_max : float) : float * option Sphere :=
  fold_left (scan origin direction t_min t_max) (spheres this) (infinity, None).

(** [TraceRay] is not a [const] method: it returns the colour and the
    raytracer it leaves behind. *)
Definition TraceRay (canvas : Canvas) (this : Raytracer)
           (origin direction : Vector3) (t_min t_max : float)
  : Color * Raytracer :=
  match snd (closest this origin direction t_min t_max) with
  | None => (GetBackground canvas, this)
  | Some closest_sphere => (color closest_sphere, this)
  end.

(** A ray to trace, and a run of [TraceRay] calls on one raytracer. *)
Record Ray : Type := mkRay
  { ray_origin : Vector3; ray_direction : Vector3;
    ray_t_min : float; ray_t_max : float }.

Definition trace (canvas : Canvas) (this : Raytracer) (ray : Ray)
  : Color * Raytracer :=
  TraceRay canvas this (ray_origin ray) (ray_direction ray)
           (ray_t_min ray) (ray_t_max ray).

(** The driver may change the canvas between two calls, so every call
    comes with the canvas as it is then. *)
Fixpoint trace_all (this : Raytracer) (calls : list (Canvas * Ray))
  : list Color * Raytracer :=
  match calls with
  | [] => ([], this)
  | (canvas, ray) :: rest =>
      let '(c, this1) := trace canvas this ray in
      let '(cs, this2) := trace_all this1 rest in
      (c :: cs, this2)
  end.

(** *** Vocabulary of the properties *)

(** [t] lies strictly between [t_min] and [t_max]. *)
Definition in_range (t_min t_max t : float) : bool :=
  (t_min <? t)%f32 && (t <? t_max)%f32.

(** [t] is a root [IntersectRaySphere] returns for [sphere] and lies
    strictly inside [(t_min, t_max)]. *)
Definition hit (origin direction : Vector3) (t_min t_max : float)
           (sphere : Sphere) (t : float) : Prop :=
  (t = fst (IntersectRaySphere origin direction sphere)
   \/ t = snd (IntersectRaySphere origin direction sphere))
  /\ in_range t_min t_max t = true.

(** What the state of the loop says about the spheres [l] it went through:
    nothing was hit, or the state holds a nearest hit. *)
Definition nearest_of (origin direction : Vector3) (t_min t_max : float)
           (l : list Sphere) (st : float * option Sphere) : Prop :=
  match snd st with
  | None =>
      fst st = infinity
      /\ forall s t, In s l -> ~ hit origin direction t_min t_max s t
  | Some s =>
      In s l /\ hit origin direction t_min t_max s (fst st)
      /\ forall s' t', In s' l -> hit origin direction t_min t_max s' t' ->
                       (t' <? fst st)%f32 = false
  end.

(** [sphere] has such a root. *)
Definition hits (origin direction : Vector3) (t_min t_max : float)
           (sphere : Sphere) : bool :=
  in_range t_min t_max (fst (IntersectRaySphere origin direction sphere))
  || in_range t_min t_max (snd (IntersectRaySphere origin direction sphere)).


(** *** The set-up of [main] *)

(** [Canvas canvas(800, 600, ...); canvas.SetViewPort(1.0f, 1.0f, 1.0f);
    canvas.Clear(WHITE);] *)
Definition main_canvas : Canvas :=
  Clear (SetViewPort (Canvas_new 800 600 zero zero zero BLACK)
                     (of_int 1) (of_int 1) (of_int 1))
        WHITE.

(** [Vector3 CameraPosition{0, 0, 0};] *)
Definition CameraPosition : Vector3 := vec 0 0 0.

(** *** The rendering loop of [main] *)

(** The values [v] takes in [for (int v = lo; v <= hi; v += 1)]. *)
Definition for_range (lo hi : Z) : list Z :=
  map (fun i => lo + Z.of_nat i) (seq 0 (Z.to_nat (hi - lo + 1))).

(** The body of the inner loop. *)
Definition render_pixel (x y : Z) (st : Canvas * Raytracer)
  : Canvas * Raytracer :=
  let '(canvas, raytracer) := st in
  let direction := CanvasToViewPort canvas x y in
  let '(color, raytracer) :=
    TraceRay canvas raytracer CameraPosition direction (of_int 1) infinity in
  (PutPixelCentered canvas x y color, raytracer).

(** The inner loop, [for (int y = -canvas.GetHeight()/2;
    y <= canvas.GetHeight()/2; y += 1)].  The bounds are read off the canvas
    as the loop is entered; nothing in its body changes the size of the
    canvas. *)
Definition render_column (x : Z) (st : Canvas * Raytracer)
  : Canvas * Raytracer :=
  fold_left (fun st y => render_pixel x y st)
            (for_range (Z.quot (- GetHeight (fst st)) 2)
                       (Z.quot (GetHeight (fst st)) 2))
            st.

(** The outer loop, [for (int x = -canvas.GetWidth()/2;
    x <= canvas.GetWidth()/2; x += 1)]. *)
Definition render (st : Canvas * Raytracer) : Canvas * Raytracer :=
  fold_left (fun st x => render_column x st)
            (for_range (Z.quot (- GetWidth (fst st)) 2)
                       (Z.quot (GetWidth (fst st)) 2))
            st.

(** The canvas [this] with the draw calls [calls] on its texture. *)
Definition with_calls (this : Canvas) (calls : list DrawCall) : Canvas :=
  mkCanvas (CanvasWidth this) (CanvasHeight this)
           (ViewWidth this) (ViewHeight this) (Distance this)
           (background this)
           (mkRenderTexture2D (tex_width (renderTexture this))
                              (tex_height (renderTexture this)) calls).

(** The colour [main] computes for the centred pixel [(x, y)]. *)
Definition pixel_color (canvas : Canvas) (raytracer : Raytracer) (x y : Z) : Color :=
  fst (TraceRay canvas raytracer CameraPosition (CanvasToViewPort canvas x y)
                (of_int 1) infinity).

(** The place on the screen of a centred pixel, as [PutPixelCentered]
    computes it. *)
Definition screen_of (this : Canvas) (p : Z * Z) : Z * Z :=
  (Z.quot (CanvasWidth this) 2 + fst p, Z.quot (CanvasHeight this) 2 - snd p).

(** The draw calls the loop body issues for the centred pixels [l], the first
    one first. *)
Definition render_calls (canvas : Canvas) (raytracer : Raytracer)
           (l : list (Z * Z)) : list DrawCall :=
  map (fun p => DrawPixel (fst (screen_of canvas p)) (snd (screen_of canvas p))
                          (pixel_color canvas raytracer (fst p) (snd p)))
      (filter (fun p => IsInBounds canvas (fst (screen_of canvas p))
                                   (snd (screen_of canvas p))) l).
(** The state of the loop of [TraceRay] after the spheres [l]: nothing was
    hit, or the state holds the first of the spheres with the nearest hit. *)
Definition first_nearest_of (origin direction : Vector3) (t_min t_max : float)
           (l : list Sphere) (st : float * option Sphere) : Prop :=
  match snd st with
  | None => forall s t, In s l -> ~ hit origin direction t_min t_max s t
  | Some s =>
      exists l1 l2,
        l = l1 ++ s :: l2
        /\ hit origin direction t_min t_max s (fst st)
        /\ (forall s' t', In s' l -> hit origin direction t_min t_max s' t' ->
                          (t' <? fst st)%f32 = false)
        /\ (forall s' t', In s' l1 -> hit origin direction t_min t_max s' t' ->
                          (fst st <? t')%f32 = true)
  end.

End graphics.

Import Float32 raylib graphics.

(** * Properties *)

(** ** The order of binary32 *)

Section FloatOrder.

Lemma ltb_rank (x y : float) :
  is_nan x = false -> is_nan y = false ->
  ((x <? y)%f32 = true <-> lex_lt (rank x) (rank y)).
Proof.
  intros Hx Hy. unfold ltb, SFltb, SFcompare.
  destruct x as [[]|[]| |[] m e], y as [[]|[]| |[] m' e'];
    try discriminate; cbn [rank lex_lt];
    try (split; [ intros; try discriminate; lia | intros; lia || reflexivity ]).
  all: change (Pos.compare_cont Eq m m') with (Pos.compare m m').
  all: destruct (Z.compare_spec e e'); destruct (Pos.compare_spec m m');
    cbn; split; intros; try discriminate; try reflexivity; lia.
Qed.

Lemma leb_rank (x y : float) :
  is_nan x = false -> is_nan y = false ->
  ((x <=? y)%f32 = true <-> ~ lex_lt (rank y) (rank x)).
Proof.
  intros Hx Hy. unfold leb, SFleb, SFcompare.
  destruct x as [[]|[]| |[] m e], y as [[]|[]| |[] m' e'];
    try discriminate; cbn [rank lex_lt];
    try (split; [ intros; try discriminate; lia | intros; lia || reflexivity ]).
  all: change (Pos.compare_cont Eq m m') with (Pos.compare m m').
  all: destruct (Z.compare_spec e e'); destruct (Pos.compare_spec m m');
    cbn; split; intros; try discriminate; try reflexivity; lia.
Qed.

Lemma ltb_not_nan (x y : float) :
  (x <? y)%f32 = true -> is_nan x = false /\ is_nan y = false.
Proof. destruct x as [| | |[]], y as [| | |[]]; cbn; intros; try discriminate; auto. Qed.

Lemma leb_not_nan (x y : float) :
  (x <=? y)%f32 = true -> is_nan x = false /\ is_nan y = false.
Proof. destruct x as [| | |[]], y as [| | |[]]; cbn; intros; try discriminate; auto. Qed.

Lemma lex_lt_irrefl p : ~ lex_lt p p.
Proof. destruct p as [[a b] c]. cbn. lia. Qed.

Lemma lex_lt_trans p q r : lex_lt p q -> lex_lt q r -> lex_lt p r.
Proof. destruct p as [[? ?] ?], q as [[? ?] ?], r as [[? ?] ?]. cbn. lia. Qed.

Lemma lex_lt_cotrans p q r : lex_lt p r -> lex_lt p q \/ lex_lt q r.
Proof. destruct p as [[? ?] ?], q as [[? ?] ?], r as [[? ?] ?]. cbn. lia. Qed.

Lemma ltb_irrefl (x : float) : (x <? x)%f32 = false.
Proof.
  destruct (is_nan x) eqn:Hx.
  - destruct x; try discriminate. reflexivity.
  - destruct (x <? x)%f32 eqn:H; [|reflexivity].
    apply ltb_rank in H; auto. now apply lex_lt_irrefl in H.
Qed.

Lemma ltb_trans (x y z : float) :
  (x <? y)%f32 = true -> (y <? z)%f32 = true -> (x <? z)%f32 = true.
Proof.
  intros H1 H2.
  destruct (ltb_not_nan _ _ H1) as [Hx Hy], (ltb_not_nan _ _ H2) as [_ Hz].
  apply ltb_rank in H1, H2; auto. apply ltb_rank; auto.
  eapply lex_lt_trans; eauto.
Qed.

(** Between two floats in order, any third one that is not NaN is above
    the lower or below the upper. *)
Lemma ltb_cotrans (x y z : float) :
  (x <? z)%f32 = true -> is_nan y = false ->
  (x <? y)%f32 = true \/ (y <? z)%f32 = true.
Proof.
  intros H Hy. destruct (ltb_not_nan _ _ H) as [Hx Hz].
  apply ltb_rank in H; auto.
  destruct (lex_lt_cotrans _ (rank y) _ H); [left|right]; apply ltb_rank; auto.
Qed.

Lemma leb_ltb_false (x y : float) :
  (x <=? y)%f32 = true -> (y <? x)%f32 = false.
Proof.
  intros H. destruct (leb_not_nan _ _ H) as [Hx Hy].
  apply leb_rank in H; auto.
  destruct (y <? x)%f32 eqn:E; [|reflexivity].
  apply ltb_rank in E; auto. contradiction.
Qed.

Lemma ltb_infinity (x y : float) :
  (x <? y)%f32 = true -> (x <? infinity)%f32 = true.
Proof.
  intros H. destruct (ltb_not_nan _ _ H) as [Hx Hy].
  destruct x as [| [] | |[]], y as [| [] | |[]]; try discriminate; reflexivity.
Qed.

End FloatOrder.

(** ** The loop of [TraceRay] *)

Section TraceRayLoop.

Variables (origin direction : Vector3) (t_min t_max : float).

Local Abbreviation roots := (IntersectRaySphere origin direction).
Local Abbreviation Hit := (hit origin direction t_min t_max).
Local Abbreviation step := (scan origin direction t_min t_max).

Lemma ltb_asym (x y : float) : (x <? y)%f32 = true -> (y <? x)%f32 = false.
Proof.
  intros H. destruct (y <? x)%f32 eqn:E; [|reflexivity].
  rewrite <- (ltb_irrefl x). symmetry. eapply ltb_trans; eauto.
Qed.

Lemma ltb_below (x y z : float) :
  (x <? z)%f32 = false -> (y <? z)%f32 = true -> (x <? y)%f32 = false.
Proof.
  intros H1 H2. destruct (x <? y)%f32 eqn:E; [|reflexivity].
  rewrite <- H1. symmetry. eapply ltb_trans; eauto.
Qed.

Lemma hit_in_range s t : Hit s t -> in_range t_min t_max t = true.
Proof. now intros [_ H]. Qed.

Lemma hit_lt_infinity s t : Hit s t -> (t <? infinity)%f32 = true.
Proof.
  intros [_ H]. unfold in_range in H. apply andb_prop in H as [_ H].
  eapply ltb_infinity; eauto.
Qed.

Lemma hit_not_nan s t : Hit s t -> is_nan t = false.
Proof. intros H. apply hit_lt_infinity in H. now apply ltb_not_nan in H. Qed.

(** One round either leaves the state alone, and then no root of the
    sphere is below [closest_t], or it moves to the least root of the
    sphere that is in range, which is then below the old [closest_t]. *)
Lemma scan_cases (st : float * option Sphere) (s : Sphere) :
  (step st s = st /\ forall t, Hit s t -> (t <? fst st)%f32 = false)
  \/ (exists t, step st s = (t, Some s) /\ Hit s t
                /\ (t <? fst st)%f32 = true
                /\ forall t', Hit s t' -> (t' <? t)%f32 = false).
Proof.
  destruct st as [ct cs]. unfold scan, hit, in_range.
  destruct (roots s) as [f g]. cbn [fst snd].
  destruct ((f <? ct)%f32 && (t_min <? f)%f32 && (f <? t_max)%f32) eqn:C1.
  - apply andb_prop in C1 as [C1 C1c]. apply andb_prop in C1 as [C1a C1b].
    cbn [fst].
    destruct ((g <? f)%f32 && (t_min <? g)%f32 && (g <? t_max)%f32) eqn:C2.
    + apply andb_prop in C2 as [C2 C2c]. apply andb_prop in C2 as [C2a C2b].
      right. exists g. repeat split; auto.
      * now rewrite C2b, C2c.
      * exact (ltb_trans _ _ _ C2a C1a).
      * intros t' [[-> | ->] _]; [now apply ltb_asym | apply ltb_irrefl].
    + right. exists f. repeat split; auto.
      * now rewrite C1b, C1c.
      * intros t' [[-> | ->] R]; [apply ltb_irrefl|].
        rewrite <- andb_assoc, R, andb_true_r in C2. exact C2.
  - cbn [fst].
    destruct ((g <? ct)%f32 && (t_min <? g)%f32 && (g <? t_max)%f32) eqn:C2.
    + apply andb_prop in C2 as [C2 C2c]. apply andb_prop in C2 as [C2a C2b].
      right. exists g. repeat split; auto.
      * now rewrite C2b, C2c.
      * intros t' [[-> | ->] R]; [|apply ltb_irrefl].
        rewrite <- andb_assoc, R, andb_true_r in C1.
        eauto using ltb_below.
    + left. split; [reflexivity|].
      intros t [[-> | ->] R].
      * now rewrite <- andb_assoc, R, andb_true_r in C1.
      * now rewrite <- andb_assoc, R, andb_true_r in C2.
Qed.

Lemma scan_nearest (l : list Sphere) st s :
  nearest_of origin direction t_min t_max l st ->
  nearest_of origin direction t_min t_max (l ++ [s]) (step st s).
Proof.
  intros Inv.
  destruct (scan_cases st s) as [[E Hs] | (t & E & Ht & Hlt & Hs)]; rewrite E.
  - destruct st as [ct [s0|]]; unfold nearest_of in *; cbn [fst snd] in *.
    + destruct Inv as (I0 & H0 & M0). split; [|split]; auto.
      * apply in_or_app; now left.
      * intros s' t' I' H'. apply in_app_or in I' as [I'|[<-|[]]]; eauto.
    + destruct Inv as [-> N]. split; auto.
      intros s' t' I' H'. apply in_app_or in I' as [I'|[<-|[]]].
      * eapply N; eauto.
      * pose proof (hit_lt_infinity _ _ H') as L. rewrite (Hs _ H') in L.
        discriminate.
  - unfold nearest_of in *; cbn [fst snd] in *. split; [|split].
    + apply in_or_app; right; now left.
    + exact Ht.
    + intros s' t' I' H'. apply in_app_or in I' as [I'|[<-|[]]]; [|now apply Hs].
      destruct (snd st) as [s0|].
      * destruct Inv as (_ & _ & M0). eauto using ltb_below.
      * destruct Inv as [_ N]. exfalso. eapply N; eauto.
Qed.

Lemma fold_scan_nearest (l l0 : list Sphere) st :
  nearest_of origin direction t_min t_max l0 st ->
  nearest_of origin direction t_min t_max (l0 ++ l) (fold_left step l st).
Proof.
  revert l0 st. induction l as [|s l IH]; intros l0 st Inv; cbn [fold_left].
  - now rewrite app_nil_r.
  - replace (l0 ++ s :: l) with ((l0 ++ [s]) ++ l) by now rewrite <- app_assoc.
    apply IH. now apply scan_nearest.
Qed.

Lemma closest_nearest (this : Raytracer) :
  nearest_of origin direction t_min t_max (spheres this)
             (closest this origin direction t_min t_max).
Proof.
  unfold closest. apply (fold_scan_nearest (spheres this) []).
  split; [reflexivity|]. intros s t [].
Qed.

End TraceRayLoop.

Section TraceRayOrder.

Variables (origin direction : Vector3) (t_min t_max : float).

Local Abbreviation Hit := (hit origin direction t_min t_max).
Local Abbreviation step := (scan origin direction t_min t_max).

Lemma hits_hit (s : Sphere) :
  hits origin direction t_min t_max s = true <-> exists t, Hit s t.
Proof.
  unfold hits, hit. split.
  - intros H. apply orb_prop in H as [H|H]; eexists; (split; [|exact H]); auto.
  - intros (t & [-> | ->] & H); rewrite H; [reflexivity | apply orb_true_r].
Qed.

(** A sphere none of whose roots in range is below [closest_t] leaves the
    state of the loop as it is. *)
Lemma scan_skip (st : float * option Sphere) (s : Sphere) :
  (forall t, Hit s t -> (t <? fst st)%f32 = false) -> step st s = st.
Proof.
  intros N. destruct (scan_cases origin direction t_min t_max st s)
    as [[E _] | (t & _ & Ht & Hlt & _)]; [exact E|].
  rewrite (N _ Ht) in Hlt. discriminate.
Qed.

Lemma fold_scan_skip (l : list Sphere) (st : float * option Sphere) :
  (forall s t, In s l -> Hit s t -> (t <? fst st)%f32 = false) ->
  fold_left step l st = st.
Proof.
  induction l as [|s l IH]; intros N; cbn [fold_left]; [reflexivity|].
  rewrite scan_skip by (intros; eapply N; eauto; now left).
  apply IH. intros; eapply N; eauto; now right.
Qed.

(** Spheres with no root in range can be dropped from the scene. *)
Lemma fold_scan_filter (l : list Sphere) (st : float * option Sphere) :
  fold_left step (filter (hits origin direction t_min t_max) l) st
  = fold_left step l st.
Proof.
  revert st. induction l as [|s l IH]; intros st; cbn [filter fold_left]; [reflexivity|].
  destruct (hits origin direction t_min t_max s) eqn:E; cbn [fold_left].
  - apply IH.
  - rewrite IH. f_equal. symmetry. apply scan_skip.
    intros t Ht. assert (hits origin direction t_min t_max s = true) as E'
      by (apply hits_hit; eauto).
    congruence.
Qed.

(** The state after the spheres before the first nearest one is above its
    root. *)
Lemma fold_scan_above (l : list Sphere) (t : float) :
  (t <? infinity)%f32 = true ->
  (forall s' t', In s' l -> Hit s' t' -> (t <? t')%f32 = true) ->
  (t <? fst (fold_left step l (infinity, None)))%f32 = true.
Proof.
  intros Ht A.
  pose proof (fold_scan_nearest origin direction t_min t_max l [] (infinity, None)) as Inv.
  cbn [app] in Inv. unfold nearest_of in Inv.
  destruct (snd (fold_left step l (infinity, None))) as [s0|].
  - destruct Inv as (I0 & H0 & _); [split; [reflexivity | intros ? ? []]|]. eauto.
  - destruct Inv as [-> _]; [split; [reflexivity | intros ? ? []]|]. exact Ht.
Qed.

(** The first sphere whose root in range is a least one is the one the loop
    ends on. *)
Lemma fold_scan_first (l1 l2 : list Sphere) (s : Sphere) (t : float) :
  Hit s t ->
  (forall s' t', In s' (l1 ++ s :: l2) -> Hit s' t' -> (t' <? t)%f32 = false) ->
  (forall s' t', In s' l1 -> Hit s' t' -> (t <? t')%f32 = true) ->
  snd (fold_left step (l1 ++ s :: l2) (infinity, None)) = Some s.
Proof.
  intros Ht Min Before.
  rewrite fold_left_app. cbn [fold_left].
  pose proof (fold_scan_above l1 t (hit_lt_infinity _ _ _ _ _ _ Ht) Before) as Above.
  set (st := fold_left step l1 (infinity, None)) in *.
  destruct (scan_cases origin direction t_min t_max st s)
    as [[_ N] | (t' & E & Ht' & _ & Least)].
  { rewrite (N _ Ht) in Above. discriminate. }
  rewrite E, fold_scan_skip; [reflexivity|].
  cbn [fst]. intros s' t'' I' H'.
  assert (In s' (l1 ++ s :: l2)) as I'' by (apply in_or_app; right; now right).
  destruct (t'' <? t')%f32 eqn:L; [|reflexivity].
  destruct (ltb_cotrans _ t _ L (hit_not_nan _ _ _ _ _ _ Ht)) as [L'|L'].
  - rewrite (Min _ _ I'' H') in L'. discriminate.
  - rewrite (Least _ Ht) in L'. discriminate.
Qed.

(** When the range is empty no root is in range. *)
Lemma empty_range_no_hit (s : Sphere) (t : float) :
  (t_max <=? t_min)%f32 = true -> ~ Hit s t.
Proof.
  intros E [_ R]. unfold in_range in R. apply andb_prop in R as [R1 R2].
  apply leb_ltb_false in E. rewrite (ltb_trans _ _ _ R1 R2) in E. discriminate.
Qed.

End TraceRayOrder.

(** ** The canvas *)

(** C1, as amended.  Once the viewport is set to [Vw], [Vh], [d], the
    direction through the centred pixel [(x, y)] has the components
    [x * Vw / W], [-(y * Vh / H)] and [d], each product and quotient taken in
    binary32: the vertical component is negated. *)
Theorem CanvasToViewPort_components :
  forall (this : Canvas) (Vw Vh d : float) (x y : Z),
    CanvasToViewPort (SetViewPort this Vw Vh d) x y
    = mkVector3 (of_int x * Vw / of_int (CanvasWidth this))%f32
                (- (of_int y * Vh / of_int (CanvasHeight this)))%f32
                d.
Proof. reflexivity. Qed.

(** C1, as stated, fails on the canvas of [main] at the pixel [(0, 300)]:
    the vertical component is [-0.5] where [300 * 1 / 600] is [0.5]. *)
Lemma CanvasToViewPort_y_flipped :
  CanvasToViewPort main_canvas 0 300
  <> mkVector3 (of_int 0 * of_int 1 / of_int 800)%f32
               (of_int 300 * of_int 1 / of_int 600)%f32
               (of_int 1)
  /\ (raylib.y (CanvasToViewPort main_canvas 0 300)
      =? of_int 300 * of_int 1 / of_int 600)%f32 = false
  /\ raylib.y (CanvasToViewPort main_canvas 0 300) = (- (of_int 1 / of_int 2))%f32.
Proof.
  split; [|split; reflexivity].
  intros H. vm_compute in H. discriminate H.
Qed.

Lemma IsInBounds_iff (this : Canvas) (x y : Z) :
  IsInBounds this x y = true
  <-> 0 <= x < CanvasWidth this /\ 0 <= y < CanvasHeight this.
Proof. unfold IsInBounds. rewrite !andb_true_iff. lia. Qed.

Lemma IsInBoundsCentered_iff (this : Canvas) (x y : Z) :
  IsInBoundsCentered this x y = true
  <-> Z.quot (- CanvasWidth this) 2 <= x < Z.quot (CanvasWidth this) 2
      /\ Z.quot (- CanvasHeight this) 2 <= y < Z.quot (CanvasHeight this) 2.
Proof. unfold IsInBoundsCentered. rewrite !andb_true_iff. lia. Qed.

(** The centred coordinates [PutPixelCentered] really draws: one column more
    on the right when the width is odd, and the rows from [H/2 - H + 1] up to
    [H/2], which is the range of [IsInBoundsCentered] moved up by one row
    when the height is even. *)
Lemma PutPixelCentered_drawn_iff (this : Canvas) (x y : Z) :
  0 < CanvasWidth this -> 0 < CanvasHeight this ->
  IsInBounds this (Z.quot (CanvasWidth this) 2 + x) (Z.quot (CanvasHeight this) 2 - y) = true
  <-> - Z.quot (CanvasWidth this) 2 <= x < CanvasWidth this - Z.quot (CanvasWidth this) 2
      /\ Z.quot (CanvasHeight this) 2 - CanvasHeight this < y <= Z.quot (CanvasHeight this) 2.
Proof. intros HW HH. rewrite IsInBounds_iff. lia. Qed.

(** C2 fails on the canvas of [main], 800 by 600.  The centred pixel
    [(0, -300)] passes [IsInBoundsCentered], is mapped to the screen pixel
    [(400, 600)], which fails [IsInBounds], and [PutPixelCentered] draws
    nothing; the centred pixel [(0, 300)] fails [IsInBoundsCentered] and is
    drawn, at the screen pixel [(400, 0)]. *)
Theorem PutPixelCentered_bounds_disagree :
  IsInBoundsCentered main_canvas 0 (-300) = true
  /\ (Z.quot 800 2 + 0, Z.quot 600 2 - (-300)) = (400, 600)
  /\ IsInBounds main_canvas 400 600 = false
  /\ (forall color, PutPixelCentered main_canvas 0 (-300) color = main_canvas)
  /\ IsInBoundsCentered main_canvas 0 300 = false
  /\ IsInBounds main_canvas (Z.quot 800 2 + 0) (Z.quot 600 2 - 300) = true.
Proof. repeat split. Qed.

(** C8.  [PutPixel] draws exactly when [0 <= x < W] and [0 <= y < H]: then
    the texture receives one [DrawPixel x y color] and nothing else of the
    canvas changes; otherwise the canvas, and so every pixel of it, is what
    it was.  [PutPixel] always returns. *)
Theorem PutPixel_in_bounds_only :
  forall (this : Canvas) (x y : Z) (color : Color),
    let inside := 0 <= x < CanvasWidth this /\ 0 <= y < CanvasHeight this in
    (~ inside -> PutPixel this x y color = this)
    /\ (inside ->
        renderTexture (PutPixel this x y color)
        = draw (DrawPixel x y color) (renderTexture this))
    /\ (pixel_writes (tex_calls (renderTexture (PutPixel this x y color)))
        = S (pixel_writes (tex_calls (renderTexture this)))
        <-> inside)
    /\ (forall px py, ~ inside ->
          texel (renderTexture (PutPixel this x y color)) px py
          = texel (renderTexture this) px py).
Proof.
  intros this x y color inside. unfold PutPixel.
  pose proof (IsInBounds_iff this x y) as B. fold inside in B.
  destruct (IsInBounds this x y); cbn.
  - assert (inside) as I by now apply B.
    split; [tauto|]. split; [reflexivity|]. split; [tauto|]. tauto.
  - assert (~ inside) as I by (intros I; apply B in I; discriminate).
    split; [reflexivity|]. split; [tauto|]. split; [|reflexivity].
    split; [lia | tauto].
Qed.

Lemma PutPixel_in_bounds_only_witness :
  PutPixel main_canvas 800 0 BLACK = main_canvas
  /\ renderTexture (PutPixel main_canvas 799 0 BLACK)
     = draw (DrawPixel 799 0 BLACK) (renderTexture main_canvas).
Proof.
  split.
  - apply (proj1 (PutPixel_in_bounds_only main_canvas 800 0 BLACK)). cbn. lia.
  - apply (proj1 (proj2 (PutPixel_in_bounds_only main_canvas 799 0 BLACK))). cbn. lia.
Defined.

(** Where [PutPixel] draws, the pixel takes the colour and every other
    pixel keeps its own. *)
Lemma PutPixel_texel (this : Canvas) (x y : Z) (color : Color) (px py : Z) :
  tex_width (renderTexture this) = CanvasWidth this ->
  tex_height (renderTexture this) = CanvasHeight this ->
  IsInBounds this x y = true ->
  texel (renderTexture (PutPixel this x y color)) px py
  = if (x =? px) && (y =? py) then Some color
    else texel (renderTexture this) px py.
Proof.
  intros HW HH B. unfold PutPixel. rewrite B. unfold texel. cbn.
  apply IsInBounds_iff in B. rewrite HW, HH.
  destruct (x =? px) eqn:Ex, (y =? py) eqn:Ey; cbn;
    try (destruct (_ && _ && _ && _); reflexivity).
  apply Z.eqb_eq in Ex, Ey. subst.
  replace (0 <=? px) with true by (symmetry; apply Z.leb_le; lia).
  replace (px <? CanvasWidth this) with true by (symmetry; apply Z.ltb_lt; lia).
  replace (0 <=? py) with true by (symmetry; apply Z.leb_le; lia).
  replace (py <? CanvasHeight this) with true by (symmetry; apply Z.ltb_lt; lia).
  reflexivity.
Qed.

(** ** The ray tracer *)

Lemma IntersectRaySphere_discriminant (origin direction : Vector3) (sphere : Sphere) :
  let k1 := quad_k1 direction in
  let k2 := quad_k2 origin direction sphere in
  let k3 := quad_k3 origin sphere in
  let discriminant := discriminant_of k1 k2 k3 in
  IntersectRaySphere origin direction sphere
  = if (discriminant <? zero)%f32 then (infinity, infinity)
    else (((- k2 + sqrt discriminant) / (of_int 2 * k1))%f32,
          ((- k2 - sqrt discriminant) / (of_int 2 * k1))%f32).
Proof. reflexivity. Qed.

(** C4.  When the discriminant [k2*k2 - 4*k1*k3] that [IntersectRaySphere]
    computes is negative, the function returns [(+infinity, +infinity)]. *)
Theorem IntersectRaySphere_negative_discriminant :
  forall (origin direction : Vector3) (sphere : Sphere),
    (discriminant_of (quad_k1 direction) (quad_k2 origin direction sphere)
                     (quad_k3 origin sphere) <? zero)%f32 = true ->
    IntersectRaySphere origin direction sphere = (infinity, infinity).
Proof.
  intros origin direction sphere H.
  rewrite IntersectRaySphere_discriminant. cbv zeta. now rewrite H.
Qed.

Lemma IntersectRaySphere_negative_discriminant_witness :
  IntersectRaySphere CameraPosition (vec 1 0 0)
                     (mkSphere (vec 0 (-1) 3) (of_int 1) (mkColor 255 0 0 255))
  = (infinity, infinity).
Proof.
  apply (IntersectRaySphere_negative_discriminant
           CameraPosition (vec 1 0 0)
           (mkSphere (vec 0 (-1) 3) (of_int 1) (mkColor 255 0 0 255))).
  vm_compute. reflexivity.
Defined.

(** C3.  [TraceRay] returns the background of the canvas when no root of
    any sphere lies strictly between [t_min] and [t_max]; otherwise it
    returns the colour of a sphere of the scene that owns a root [t] strictly
    between them below which no sphere has such a root.  With a sphere hit at
    [t = 2] and one hit at [t = 5], [t_min = 1] and [t_max = 10], it returns
    the colour of the one hit at [t = 2], in whichever order the two come. *)
Theorem TraceRay_nearest_hit :
  (forall (canvas : Canvas) (this : Raytracer) (origin direction : Vector3)
          (t_min t_max : float),
      ((forall s t, In s (spheres this) -> ~ hit origin direction t_min t_max s t)
       /\ fst (TraceRay canvas this origin direction t_min t_max)
          = GetBackground canvas)
      \/ (exists s t,
             In s (spheres this)
             /\ hit origin direction t_min t_max s t
             /\ (forall s' t', In s' (spheres this) ->
                               hit origin direction t_min t_max s' t' ->
                               (t' <? t)%f32 = false)
             /\ fst (TraceRay canvas this origin direction t_min t_max)
                = color s))
  /\ (let near := mkSphere (vec 0 0 3) (of_int 1) (mkColor 255 0 0 255) in
      let far := mkSphere (vec 0 0 6) (of_int 1) (mkColor 0 0 255 255) in
      let direction := vec 0 0 1 in
      IntersectRaySphere CameraPosition direction near = (of_int 4, of_int 2)
      /\ IntersectRaySphere CameraPosition direction far = (of_int 7, of_int 5)
      /\ fst (TraceRay main_canvas (mkRaytracer [near; far])
                       CameraPosition direction (of_int 1) (of_int 10))
         = color near
      /\ fst (TraceRay main_canvas (mkRaytracer [far; near])
                       CameraPosition direction (of_int 1) (of_int 10))
         = color near).
Proof.
  split; [|repeat split].
  intros canvas this origin direction t_min t_max.
  pose proof (closest_nearest origin direction t_min t_max this) as Inv.
  unfold TraceRay, nearest_of in *.
  destruct (snd (closest this origin direction t_min t_max)) as [s|].
  - right. destruct Inv as (I & H & M). exists s. eexists. eauto.
  - left. destruct Inv as [_ N]. split; [exact N | reflexivity].
Qed.

(** The two scenes of the specification with the red sphere alone: the
    ray straight ahead touches it at [t = 3], the ray to the side misses
    it. *)
Example TraceRay_red_ahead :
  let red := mkSphere (vec 0 (-1) 3) (of_int 1) (mkColor 255 0 0 255) in
  IntersectRaySphere CameraPosition (vec 0 0 1) red = (of_int 3, of_int 3)
  /\ fst (TraceRay main_canvas (mkRaytracer [red]) CameraPosition (vec 0 0 1)
                   (of_int 1) infinity)
     = mkColor 255 0 0 255
  /\ fst (TraceRay main_canvas (mkRaytracer [red]) CameraPosition (vec 1 0 0)
                   (of_int 1) infinity)
     = GetBackground main_canvas.
Proof. repeat split. Qed.

(** C5.  When [t_min >= t_max], [TraceRay] returns the background of the
    canvas, whatever the spheres, the origin and the direction. *)
Theorem TraceRay_empty_range :
  forall (canvas : Canvas) (this : Raytracer) (origin direction : Vector3)
         (t_min t_max : float),
    (t_max <=? t_min)%f32 = true ->
    fst (TraceRay canvas this origin direction t_min t_max) = GetBackground canvas.
Proof.
  intros canvas this origin direction t_min t_max E.
  pose proof (closest_nearest origin direction t_min t_max this) as Inv.
  unfold TraceRay, nearest_of in *.
  destruct (snd (closest this origin direction t_min t_max)) as [s|];
    [|reflexivity].
  destruct Inv as (_ & H & _). now apply empty_range_no_hit in H.
Qed.

Lemma TraceRay_empty_range_witness :
  fst (TraceRay main_canvas Raytracer_new CameraPosition (vec 0 0 1)
                (of_int 10) (of_int 1))
  = GetBackground main_canvas.
Proof.
  apply (TraceRay_empty_range main_canvas Raytracer_new CameraPosition
                              (vec 0 0 1) (of_int 10) (of_int 1)).
  vm_compute. reflexivity.
Defined.

(** C7.  Two scenes that are permutations of each other and list the
    spheres having a root strictly between [t_min] and [t_max] in the same
    order give the same colour.  When the root [t] of a sphere is a least one
    in range and every root in range of the spheres before it is above [t],
    that sphere gives the colour, also when a later sphere has the root [t]
    as well. *)
Theorem TraceRay_scene_order :
  forall (canvas : Canvas) (origin direction : Vector3) (t_min t_max : float),
    (forall l l' : list Sphere,
        Permutation l l' ->
        filter (hits origin direction t_min t_max) l
        = filter (hits origin direction t_min t_max) l' ->
        fst (TraceRay canvas (mkRaytracer l) origin direction t_min t_max)
        = fst (TraceRay canvas (mkRaytracer l') origin direction t_min t_max))
    /\ (forall (l1 l2 : list Sphere) (s : Sphere) (t : float),
           hit origin direction t_min t_max s t ->
           (forall s' t', In s' (l1 ++ s :: l2) ->
                          hit origin direction t_min t_max s' t' ->
                          (t' <? t)%f32 = false) ->
           (forall s' t', In s' l1 ->
                          hit origin direction t_min t_max s' t' ->
                          (t <? t')%f32 = true) ->
           fst (TraceRay canvas (mkRaytracer (l1 ++ s :: l2))
                         origin direction t_min t_max)
           = color s).
Proof.
  intros canvas origin direction t_min t_max. split.
  - intros l l' _ E. unfold TraceRay, closest. cbn [spheres].
    rewrite <- (fold_scan_filter origin direction t_min t_max l).
    rewrite <- (fold_scan_filter origin direction t_min t_max l').
    rewrite E.
    destruct (snd (fold_left _ _ _)); reflexivity.
  - intros l1 l2 s t Ht Min Before. unfold TraceRay, closest. cbn [spheres].
    now rewrite (fold_scan_first origin direction t_min t_max l1 l2 s t).
Qed.

Lemma TraceRay_scene_order_witness :
  let red := mkSphere (vec 0 0 3) (of_int 1) (mkColor 255 0 0 255) in
  let blue := mkSphere (vec 0 0 3) (of_int 1) (mkColor 0 0 255 255) in
  let aside := mkSphere (vec 2 0 4) (of_int 1) (mkColor 0 255 0 255) in
  let ground := mkSphere (vec 0 (-5001) 0) (of_int 5000) (mkColor 255 255 0 255) in
  fst (TraceRay main_canvas (mkRaytracer [aside; red; ground])
                CameraPosition (vec 0 0 1) (of_int 1) infinity)
  = fst (TraceRay main_canvas (mkRaytracer [ground; red; aside])
                  CameraPosition (vec 0 0 1) (of_int 1) infinity)
  /\ fst (TraceRay main_canvas (mkRaytracer ([aside] ++ red :: [blue]))
                   CameraPosition (vec 0 0 1) (of_int 1) infinity)
     = color red.
Proof.
  intros red blue aside ground.
  pose proof (TraceRay_scene_order main_canvas CameraPosition (vec 0 0 1)
                                   (of_int 1) infinity) as [Reorder First].
  split.
  - apply Reorder.
    + apply Permutation_rev.
    + vm_compute. reflexivity.
  - apply (First [aside] [blue] red (of_int 2)).
    + split; [right|]; vm_compute; reflexivity.
    + intros s' t' [<-|[<-|[<-|[]]]] [[-> | ->] R]; vm_compute in R |- *;
        solve [reflexivity | discriminate R].
    + intros s' t' [<-|[]] [[-> | ->] R]; vm_compute in R; discriminate R.
Defined.

(** C9.  A call of [TraceRay] returns the raytracer it was called on, and
    so does any run of calls: the spheres stay what the constructor made
    them, centre, radius and colour. *)
Theorem TraceRay_keeps_spheres :
  forall (calls : list (Canvas * Ray)) (this : Raytracer),
    (forall canvas ray, snd (trace canvas this ray) = this)
    /\ snd (trace_all this calls) = this
    /\ spheres (snd (trace_all Raytracer_new calls)) = spheres Raytracer_new.
Proof.
  assert (forall canvas this ray, snd (trace canvas this ray) = this) as One.
  { intros canvas this ray. unfold trace, TraceRay.
    destruct (snd (closest _ _ _ _ _)); reflexivity. }
  assert (forall calls this, snd (trace_all this calls) = this) as All.
  { induction calls as [|[canvas ray] calls IH]; intros this; cbn [trace_all].
    - reflexivity.
    - specialize (One canvas this ray).
      destruct (trace canvas this ray) as [c this1]. cbn [snd] in One. subst this1.
      specialize (IH this). destruct (trace_all this calls) as [cs this2].
      exact IH. }
  intros calls this. split; [|split]; auto. now rewrite All.
Qed.

(** ** The two roots of [IntersectRaySphere] *)

Lemma binary_round_aux_opp (s : bool) (m e : Z) (l : location) :
  binary_round_aux prec emax (negb s) m e l
  = SFopp (binary_round_aux prec emax s m e l).
Proof.
  unfold binary_round_aux.
  destruct (shr_fexp prec emax m e l) as [mrs' e'].
  destruct (shr_fexp prec emax _ e' loc_Exact) as [mrs'' e''].
  destruct (shr_m mrs''); [reflexivity | | reflexivity].
  destruct (e'' <=? emax - prec); reflexivity.
Qed.

Lemma div_neg (n d : float) : (- n / d)%f32 = (- (n / d))%f32.
Proof.
  destruct n as [sn|sn| |sn mn en], d as [sd|sd| |sd md ed]; cbn;
    try reflexivity; try (now destruct sn, sd).
  unfold div, SFdiv.
  destruct (SFdiv_core_binary prec emax (Z.pos mn) en (Z.pos md) ed) as [[mz ez] lz].
  replace (xorb (negb sn) sd) with (negb (xorb sn sd)) by now destruct sn, sd.
  apply binary_round_aux_opp.
Qed.


Lemma neg_not_nan (f : float) : is_nan (- f)%f32 = is_nan f.
Proof. now destruct f. Qed.






Lemma add_zero (z z' : float) :
  is_zero z = true -> is_zero z' = true -> is_zero (z + z')%f32 = true.
Proof. destruct z as [[]| | |], z' as [[]| | |]; try discriminate; reflexivity. Qed.




(** ** Rounding is monotone

    The two roots are a sum and a difference divided by the same float.
    That the quotients come in the order of the numerators rests on the
    rounding of binary32 being monotone, which is proved here on the
    functions of the standard library that [Float32] is made of. *)

Import Rounding.

(** *** Sticky quotients *)

Lemma stq_scale a b t : 0 < b -> 0 < t -> stq (a * t) (b * t) = stq a b.
Proof.
  intros Hb Ht. unfold stq.
  rewrite Z.div_mul_cancel_r by lia.
  rewrite Z.mul_mod_distr_r by lia.
  destruct (a mod b =? 0) eqn:E.
  - apply Z.eqb_eq in E. rewrite E. reflexivity.
  - apply Z.eqb_neq in E.
    destruct (a mod b * t =? 0) eqn:E'; [|reflexivity].
    apply Z.eqb_eq in E'. nia.
Qed.

Lemma stq_stq a b k : 0 < b -> 0 <= k -> stq (stq a b) (2 ^ (k + 1)) = stq a (b * 2 ^ k).
Proof.
  intros Hb Hk.
  assert (0 < 2 ^ k) as Hp by (apply Z.pow_pos_nonneg; lia).
  rewrite Z.pow_add_r, Z.pow_1_r by lia.
  remember (stq a b) as x eqn:Hx.
  unfold stq in *.
  set (q := a / b) in *. set (r := a mod b) in *.
  assert (0 <= r < b) as Hr by (apply Z.mod_pos_bound; lia).
  rewrite <- (Z.div_div a b (2 ^ k)) by lia. fold q.
  rewrite (Z.rem_mul_r a b (2 ^ k)) by lia. fold q r.
  pose proof (Z.div_mod q (2 ^ k) ltac:(lia)) as Q.
  pose proof (Z.mod_pos_bound q (2 ^ k) Hp) as Qb.
  assert (x = (2 ^ k * 2) * (q / 2 ^ k) + (2 * (q mod 2 ^ k) + (if r =? 0 then 0 else 1))) as Hx'
    by (destruct (r =? 0); lia).
  assert (0 <= 2 * (q mod 2 ^ k) + (if r =? 0 then 0 else 1) < 2 ^ k * 2) as Hb'
    by (destruct (r =? 0); lia).
  rewrite <- (Z.div_unique _ _ _ _ (or_introl Hb') Hx').
  rewrite <- (Z.mod_unique _ _ _ _ (or_introl Hb') Hx').
  f_equal.
  destruct (r =? 0) eqn:Er;
    [apply Z.eqb_eq in Er | apply Z.eqb_neq in Er];
    match goal with
    | |- (if ?X =? 0 then _ else _) = (if ?Y =? 0 then _ else _) =>
        destruct (X =? 0) eqn:E1; destruct (Y =? 0) eqn:E2;
        [reflexivity | | | reflexivity]
    end;
    [apply Z.eqb_eq in E1; apply Z.eqb_neq in E2
    |apply Z.eqb_neq in E1; apply Z.eqb_eq in E2
    |apply Z.eqb_eq in E1; apply Z.eqb_neq in E2
    |apply Z.eqb_neq in E1; apply Z.eqb_eq in E2]; exfalso; nia.
Qed.

Lemma div_mono_cross a b a' b' :
  0 < b -> 0 < b' -> a * b' <= a' * b -> a / b <= a' / b'.
Proof.
  intros Hb Hb' H.
  apply Z.div_le_lower_bound; [lia|].
  pose proof (Z.mul_div_le a b Hb).
  nia.
Qed.

Lemma stq_mono a b a' b' :
  0 < b -> 0 < b' -> a * b' <= a' * b -> stq a b <= stq a' b'.
Proof.
  intros Hb Hb' H. unfold stq.
  pose proof (div_mono_cross a b a' b' Hb Hb' H) as Q.
  pose proof (Z.div_mod a b ltac:(lia)) as Da.
  pose proof (Z.div_mod a' b' ltac:(lia)) as Da'.
  pose proof (Z.mod_pos_bound a b Hb) as Ra.
  pose proof (Z.mod_pos_bound a' b' Hb') as Ra'.
  destruct (a mod b =? 0) eqn:E, (a' mod b' =? 0) eqn:E'; try lia.
  apply Z.eqb_neq in E. apply Z.eqb_eq in E'.
  assert (a / b < a' / b' \/ a / b = a' / b') as [L|L] by lia; [lia|].
  exfalso. rewrite L in Da. nia.
Qed.

(** *** Rounding to nearest, ties to even *)

Lemma rne_mono P P' : P <= P' -> rne P <= rne P'.
Proof.
  intros H. unfold rne.
  pose proof (Z.div_mod P 4 ltac:(lia)) as D.
  pose proof (Z.div_mod P' 4 ltac:(lia)) as D'.
  pose proof (Z.mod_pos_bound P 4 ltac:(lia)) as R.
  pose proof (Z.mod_pos_bound P' 4 ltac:(lia)) as R'.
  destruct (P mod 4 <=? 1) eqn:A; destruct (P' mod 4 <=? 1) eqn:A';
  destruct (P mod 4 =? 2) eqn:B; destruct (P' mod 4 =? 2) eqn:B';
  destruct (Z.even (P / 4)) eqn:C; destruct (Z.even (P' / 4)) eqn:C'; try lia.
  all: destruct (Z.eq_dec (P / 4) (P' / 4)) as [e|e]; [rewrite e in *; congruence | lia].
Qed.

Lemma rne_bounds P : P / 4 <= rne P <= P / 4 + 1.
Proof.
  unfold rne. destruct (P mod 4 <=? 1), (P mod 4 =? 2), (Z.even (P / 4)); lia.
Qed.

(** *** The number of bits of an integer *)

Lemma digits2_pos_size p : digits2_pos p = Pos.size p.
Proof. induction p; cbn; congruence. Qed.

Lemma Zdigits2_log2 m : 0 < m -> Zdigits2 m = Z.log2 m + 1.
Proof.
  destruct m as [|p|p]; try lia. intros _. cbn [Zdigits2].
  rewrite digits2_pos_size.
  destruct p; cbn [Pos.size Z.log2]; lia.
Qed.

Lemma Zdigits2_nonneg m : 0 <= Zdigits2 m.
Proof. destruct m; cbn; lia. Qed.

Lemma Zdigits2_spec m : 0 < m -> 2 ^ (Zdigits2 m - 1) <= m < 2 ^ Zdigits2 m.
Proof.
  intros H. rewrite Zdigits2_log2 by lia.
  replace (Z.log2 m + 1 - 1) with (Z.log2 m) by lia.
  pose proof (Z.log2_spec m H). rewrite Z.add_1_r. lia.
Qed.

Lemma Zdigits2_unique m k : 2 ^ (k - 1) <= m < 2 ^ k -> 0 < k -> Zdigits2 m = k.
Proof.
  intros H Hk.
  assert (0 < m) by (pose proof (Z.pow_pos_nonneg 2 (k - 1)); lia).
  rewrite Zdigits2_log2 by lia.
  rewrite (Z.log2_unique m (k - 1)); [lia | lia |].
  replace (Z.succ (k - 1)) with k by lia. lia.
Qed.

Lemma Zdigits2_mono m m' : 0 <= m <= m' -> Zdigits2 m <= Zdigits2 m'.
Proof.
  intros H. destruct (Z.eq_dec m 0) as [->|N].
  - apply Zdigits2_nonneg.
  - rewrite !Zdigits2_log2 by lia. pose proof (Z.log2_le_mono m m'). lia.
Qed.

Lemma Zdigits2_lt_pow m k : 0 <= m -> 0 <= k -> (m < 2 ^ k <-> Zdigits2 m <= k).
Proof.
  intros Hm Hk. destruct (Z.eq_dec m 0) as [->|N].
  - cbn. pose proof (Z.pow_pos_nonneg 2 k). lia.
  - pose proof (Zdigits2_spec m ltac:(lia)) as S. split; intros H.
    + destruct (Z_le_gt_dec (Zdigits2 m) k); [lia|].
      assert (2 ^ k <= 2 ^ (Zdigits2 m - 1)) by (apply Z.pow_le_mono_r; lia). lia.
    + assert (2 ^ Zdigits2 m <= 2 ^ k) by (apply Z.pow_le_mono_r; lia). lia.
Qed.

Lemma Zdigits2_ge_pow m k : 0 <= m -> 0 < k -> (2 ^ (k - 1) <= m <-> k <= Zdigits2 m).
Proof.
  intros Hm Hk. destruct (Z.eq_dec m 0) as [->|N].
  - cbn. pose proof (Z.pow_pos_nonneg 2 (k - 1)). lia.
  - pose proof (Zdigits2_spec m ltac:(lia)) as S. split; intros H.
    + destruct (Z_le_gt_dec k (Zdigits2 m)); [lia|].
      pose proof (Zdigits2_nonneg m).
      assert (2 ^ Zdigits2 m <= 2 ^ (k - 1)) by (apply Z.pow_le_mono_r; lia).
      lia.
    + assert (2 ^ (k - 1) <= 2 ^ (Zdigits2 m - 1)) by (apply Z.pow_le_mono_r; lia). lia.
Qed.

(** *** Shifting a mantissa with its round and sticky bits

    A record stands for a quantity in quarters; [shr_1] halves the unit and
    keeps track of what is shifted out. *)

Lemma rec_code_of_loc m l : rec_code (shr_record_of_loc m l) = 4 * m + loc_code l.
Proof.
  destruct l as [|[]]; unfold rec_code, loc_code;
    cbn [shr_record_of_loc shr_m shr_r shr_s]; lia.
Qed.

Lemma rec_code_m mrs : shr_m mrs = rec_code mrs / 4.
Proof.
  unfold rec_code.
  apply Z.div_unique
    with ((if shr_r mrs then 2 else 0) + (if shr_s mrs then 1 else 0));
    destruct (shr_r mrs), (shr_s mrs); lia.
Qed.

Lemma rec_code_mod mrs :
  rec_code mrs mod 4 = (if shr_r mrs then 2 else 0) + (if shr_s mrs then 1 else 0).
Proof.
  unfold rec_code. symmetry. apply Z.mod_unique with (shr_m mrs);
    destruct (shr_r mrs), (shr_s mrs); lia.
Qed.

Lemma rne_rec mrs :
  round_nearest_even (shr_m mrs) (loc_of_shr_record mrs) = rne (rec_code mrs).
Proof.
  unfold rne. rewrite <- rec_code_m, rec_code_mod.
  destruct mrs as [m [] []];
    cbn [shr_m shr_r shr_s loc_of_shr_record round_nearest_even Z.add Z.leb
         Z.compare Z.eqb Pos.compare Pos.compare_cont Pos.eqb];
    try reflexivity.
Qed.

Lemma stq_2 P : stq P 2 = P.
Proof.
  unfold stq. pose proof (Z.div_mod P 2 ltac:(lia)).
  pose proof (Z.mod_pos_bound P 2 ltac:(lia)).
  destruct (P mod 2 =? 0) eqn:E; lia.
Qed.

Lemma shr_1_spec m r s :
  0 <= m -> shr_1 (Build_shr_record m r s) = Build_shr_record (m / 2) (Z.odd m) (r || s).
Proof.
  intros H. destruct m as [|p|p]; [reflexivity | | lia].
  destruct p; cbn [shr_1 Z.odd].
  - f_equal. rewrite Pos2Z.inj_xI. apply Z.div_unique with 1; lia.
  - f_equal. rewrite Pos2Z.inj_xO. apply Z.div_unique with 0; lia.
  - reflexivity.
Qed.

Lemma div4_code m c : 0 <= c < 4 -> (4 * m + c) / 4 = m /\ (4 * m + c) mod 4 = c.
Proof.
  intros H. split; symmetry.
  - apply Z.div_unique with c; lia.
  - apply Z.mod_unique with m; lia.
Qed.

Lemma shr_1_code mrs :
  0 <= shr_m mrs ->
  rec_code (shr_1 mrs) = stq (rec_code mrs) 4 /\ 0 <= shr_m (shr_1 mrs).
Proof.
  destruct mrs as [m r s]. cbn [shr_m]. intros H.
  rewrite shr_1_spec by assumption. unfold rec_code, stq. cbn [shr_m shr_r shr_s].
  pose proof (Z.div_mod m 2 ltac:(lia)) as D.
  pose proof (Z.mod_pos_bound m 2 ltac:(lia)) as R.
  rewrite Zodd_mod. rewrite <- !(Z.add_assoc (4 * m)).
  split; [|apply Z.div_pos; lia].
  destruct r, s; cbv iota; cbn [orb];
    match goal with
    | |- context [(4 * m + ?c) / 4] =>
        destruct (div4_code m c ltac:(lia)) as [-> ->]
    end;
    destruct (m mod 2 =? 1) eqn:E1; cbn [Z.add Z.eqb Pos.add]; lia.
Qed.

Lemma iter_pos_nat {A} (f : A -> A) p x :
  iter_pos f p x = Nat.iter (Pos.to_nat p) f x.
Proof.
  revert x. induction p as [p IH|p IH|]; intros x; cbn [iter_pos].
  - rewrite !IH, Pos2Nat.inj_xI, Nat.iter_succ_r.
    replace (2 * Pos.to_nat p)%nat with (Pos.to_nat p + Pos.to_nat p)%nat by lia.
    now rewrite Nat.iter_add.
  - rewrite !IH, Pos2Nat.inj_xO.
    replace (2 * Pos.to_nat p)%nat with (Pos.to_nat p + Pos.to_nat p)%nat by lia.
    now rewrite Nat.iter_add.
  - reflexivity.
Qed.

Lemma iter_shr_1_code n mrs :
  0 <= shr_m mrs ->
  rec_code (Nat.iter n shr_1 mrs) = stq (rec_code mrs) (2 ^ (Z.of_nat n + 1))
  /\ 0 <= shr_m (Nat.iter n shr_1 mrs).
Proof.
  intros H. induction n as [|n [IH1 IH2]].
  - cbn. split; [symmetry; apply stq_2 | assumption].
  - rewrite Nat.iter_succ. destruct (shr_1_code _ IH2) as [C N]. split; [|exact N].
    rewrite C, IH1.
    change 4 with (2 ^ (1 + 1)).
    rewrite stq_stq by (try apply Z.pow_pos_nonneg; lia).
    f_equal. rewrite <- Z.pow_add_r by lia. f_equal. lia.
Qed.

Lemma shr_fexp_code m e l :
  0 <= m ->
  let E := Z.max e (fexp prec emax (Zdigits2 m + e)) in
  snd (shr_fexp prec emax m e l) = E
  /\ rec_code (fst (shr_fexp prec emax m e l))
     = stq (4 * m + loc_code l) (2 ^ (E - e + 1))
  /\ 0 <= shr_m (fst (shr_fexp prec emax m e l)).
Proof.
  intros H E. unfold shr_fexp, shr.
  assert (shr_m (shr_record_of_loc m l) = m) as Hm by (now destruct l as [|[]]).
  destruct (fexp prec emax (Zdigits2 m + e) - e) as [|p|p] eqn:N; cbn [fst snd].
  - replace E with e by lia. rewrite rec_code_of_loc, Z.sub_diag, Hm.
    split; [reflexivity|]. split; [symmetry; apply stq_2 | assumption].
  - replace E with (e + Z.pos p) by lia. split; [reflexivity|].
    rewrite iter_pos_nat.
    destruct (iter_shr_1_code (Pos.to_nat p) (shr_record_of_loc m l)) as [C Nn];
      [now rewrite Hm|].
    split; [|exact Nn]. rewrite C, rec_code_of_loc, positive_nat_Z.
    do 2 f_equal. lia.
  - replace E with e by lia. rewrite rec_code_of_loc, Z.sub_diag, Hm.
    split; [reflexivity|]. split; [symmetry; apply stq_2 | assumption].
Qed.

Lemma rne_nonneg P : 0 <= P -> 0 <= rne P.
Proof.
  intros H. pose proof (rne_bounds P). pose proof (Z.div_pos P 4 H ltac:(lia)). lia.
Qed.

Lemma stq_nonneg a b : 0 <= a -> 0 < b -> 0 <= stq a b.
Proof.
  intros. unfold stq. pose proof (Z.div_pos a b). destruct (_ =? _); lia.
Qed.

Lemma stq_exact_div4 m K : 0 <= m -> 0 < K -> stq (4 * m) (2 * K) / 4 = m / K.
Proof.
  intros Hm HK. unfold stq.
  replace (4 * m) with ((2 * m) * 2) by lia.
  rewrite (Z.mul_comm 2 K), Z.div_mul_cancel_r by lia.
  set (X := 2 * m / K).
  assert (X / 2 = m / K) as <-.
  { subst X. rewrite Z.div_div by lia. rewrite (Z.mul_comm K 2).
    apply Z.div_mul_cancel_l; lia. }
  pose proof (Z.div_mod X 2 ltac:(lia)).
  pose proof (Z.mod_pos_bound X 2 ltac:(lia)).
  symmetry.
  apply Z.div_unique with (2 * (X mod 2) + (if 2 * m * 2 mod (K * 2) =? 0 then 0 else 1));
    destruct (_ =? 0); lia.
Qed.

(** [binary_round_aux] shifts the mantissa to the exponent binary32 gives
    it, rounds and renormalises. *)
Lemma round_aux_normal s m e l :
  0 <= m ->
  let E := Z.max e (fexp prec emax (Zdigits2 m + e)) in
  binary_round_aux prec emax s m e l
  = finish s E (stq (4 * m + loc_code l) (2 ^ (E - e + 1))).
Proof.
  intros H E. unfold binary_round_aux, finish.
  destruct (shr_fexp_code m e l H) as (HE & HC & HN). fold E in HE, HC.
  destruct (shr_fexp prec emax m e l) as [mrs' e']. cbn [fst snd] in *. subst e'.
  rewrite rne_rec, HC.
  set (P := stq (4 * m + loc_code l) (2 ^ (E - e + 1))) in *.
  assert (0 <= rne P) as Hr.
  { apply rne_nonneg. rewrite <- HC. unfold rec_code.
    destruct (shr_r mrs'), (shr_s mrs'); lia. }
  destruct (shr_fexp_code (rne P) E loc_Exact Hr) as (HE2 & HC2 & HN2).
  set (E2 := Z.max E (fexp prec emax (Zdigits2 (rne P) + E))) in *.
  destruct (shr_fexp prec emax (rne P) E loc_Exact) as [mrs'' e'']. cbn [fst snd] in *.
  subst e''. rewrite (rec_code_m mrs''), HC2. cbn [loc_code]. rewrite Z.add_0_r.
  rewrite Z.pow_add_r, Z.pow_1_r by lia. rewrite (Z.mul_comm _ 2).
  rewrite stq_exact_div4; [reflexivity | assumption | apply Z.pow_pos_nonneg; lia].
Qed.

(** *** The end of the rounding *)

Lemma fexp_eq x : fexp prec emax x = Z.max (x - 24) (-149).
Proof. reflexivity. Qed.

Lemma finish_spec s E P :
  -149 <= E -> 0 <= P -> P / 4 < 2 ^ 24 ->
  (rne P = 0 /\ finish s E P = S754_zero s)
  \/ (0 < rne P < 2 ^ 24
      /\ finish s E P
         = if E <=? 104 then S754_finite s (Z.to_pos (rne P)) E else S754_infinity s)
  \/ (rne P = 2 ^ 24
      /\ finish s E P
         = if E + 1 <=? 104 then S754_finite s (Z.to_pos (2 ^ 23)) (E + 1)
           else S754_infinity s).
Proof.
  intros HE HP HM. unfold finish.
  pose proof (rne_bounds P) as B.
  pose proof (Z.div_pos P 4 HP ltac:(lia)) as Dp.
  set (m1 := rne P) in *.
  assert (m1 = 0 \/ 0 < m1 < 2 ^ 24 \/ m1 = 2 ^ 24) as [Z|[Z|Z]] by lia.
  - left. split; [exact Z|]. rewrite Z. cbn [Zdigits2].
    rewrite Z.div_0_l; [reflexivity|].
    apply Z.pow_nonzero; [lia|]. rewrite fexp_eq. lia.
  - right; left. split; [exact Z|].
    assert (Zdigits2 m1 <= 24) as Hd by (apply Zdigits2_lt_pow; lia).
    pose proof (Zdigits2_nonneg m1).
    rewrite fexp_eq.
    replace (Z.max E (Z.max (Zdigits2 m1 + E - 24) (-149))) with E by lia.
    rewrite Z.sub_diag, Z.pow_0_r, Z.div_1_r.
    change (emax - prec) with 104.
    destruct m1; try lia. reflexivity.
  - right; right. split; [exact Z|]. rewrite Z.
    change (Zdigits2 (2 ^ 24)) with 25. rewrite fexp_eq.
    replace (Z.max E (Z.max (25 + E - 24) (-149))) with (E + 1) by lia.
    replace (E + 1 - E) with 1 by lia.
    change (emax - prec) with 104. reflexivity.
Qed.

Lemma finish_mono E P E' P' :
  -149 <= E -> 0 <= P -> P / 4 < 2 ^ 24 ->
  -149 <= E' -> 0 <= P' -> P' / 4 < 2 ^ 24 ->
  (E = E' /\ P <= P') \/ (E < E' /\ 2 ^ 23 <= P' / 4) ->
  ple (finish false E P) (finish false E' P').
Proof.
  intros HE HP HM HE' HP' HM' Ord.
  pose proof (rne_bounds P) as B. pose proof (rne_bounds P') as B'.
  assert (E = E' /\ rne P <= rne P' \/ E < E' /\ 2 ^ 23 <= rne P') as Ord'.
  { destruct Ord as [[-> L]|[L M]]; [left|right]; split; auto; try lia.
    now apply rne_mono. }
  clear Ord.
  destruct (finish_spec false E P HE HP HM) as [[Z ->]|[[Z ->]|[Z ->]]];
  destruct (finish_spec false E' P' HE' HP' HM') as [[Z' ->]|[[Z' ->]|[Z' ->]]];
    change (2 ^ 24) with 16777216 in *; change (2 ^ 23) with 8388608 in *;
    try (destruct (E <=? 104) eqn:C); try (destruct (E + 1 <=? 104) eqn:C1);
    try (destruct (E' <=? 104) eqn:C'); try (destruct (E' + 1 <=? 104) eqn:C1');
    cbn [ple]; try exact I; try lia.
  all: try (rewrite !Z2Pos.id by lia; change (2 ^ 24) with 16777216; lia).
  all: try (destruct (rne P) eqn:R; try lia; destruct (rne P') eqn:R'; try lia; cbn; lia).
Qed.

(** *** The rounding of a larger quantity is larger *)

Lemma stq_div4 a b : 0 <= a -> 0 < b -> stq (2 * a) b / 4 = a / b.
Proof.
  intros Ha Hb. unfold stq.
  pose proof (Z.div_mod a b ltac:(lia)) as D.
  pose proof (Z.mod_pos_bound a b Hb) as R.
  set (q := a / b) in *. set (r := a mod b) in *.
  assert (2 * a / b = 2 * q + (2 * r) / b) as ->.
  { replace (2 * a) with (2 * r + (2 * q) * b) by lia.
    rewrite Z.div_add by lia. lia. }
  assert (0 <= 2 * r / b <= 1) as T.
  { split; [apply Z.div_pos; lia|].
    apply Z.lt_succ_r. apply Z.div_lt_upper_bound; lia. }
  symmetry. apply Z.div_unique with (2 * (2 * r / b) + (if 2 * a mod b =? 0 then 0 else 1));
    destruct (_ =? 0); lia.
Qed.

Lemma pow2_pos k : 0 < 2 ^ k \/ k < 0.
Proof. destruct (Z_lt_le_dec k 0); [now right | left; apply Z.pow_pos_nonneg; lia]. Qed.

Lemma cman_facts A b c :
  0 <= A -> 0 < b -> c <= cexp A b c ->
  0 <= cman A b c
  /\ cman A b c / 4 < 2 ^ 24
  /\ (-149 < cexp A b c -> 2 ^ 23 <= cman A b c / 4).
Proof.
  intros HA Hb Hc. unfold cman.
  set (E := cexp A b c) in *.
  assert (0 < 2 ^ (E - c)) as HK by (apply Z.pow_pos_nonneg; lia).
  split; [apply stq_nonneg; nia|].
  rewrite stq_div4 by nia. rewrite <- Z.div_div by lia.
  set (m := A / b) in *.
  assert (0 <= m) as Hm by (apply Z.div_pos; lia).
  assert (E = Z.max (Zdigits2 m + c - 24) (-149)) as HE by reflexivity.
  split.
  - apply Z.div_lt_upper_bound; [lia|].
    rewrite <- Z.pow_add_r by lia.
    apply Zdigits2_lt_pow; lia.
  - intros L. apply Z.div_le_lower_bound; [lia|].
    rewrite Z.mul_comm, <- Z.pow_add_r by lia.
    replace (23 + (E - c)) with (Zdigits2 m - 1) by lia.
    apply Zdigits2_ge_pow; lia.
Qed.

Lemma cexp_mono A b A' b' c :
  0 <= A -> 0 < b -> 0 < b' -> A * b' <= A' * b -> cexp A b c <= cexp A' b' c.
Proof.
  intros HA Hb Hb' H. unfold cexp. rewrite !fexp_eq.
  pose proof (div_mono_cross A b A' b' Hb Hb' H).
  pose proof (Zdigits2_mono (A / b) (A' / b')).
  pose proof (Z.div_pos A b HA Hb). lia.
Qed.

Lemma located_mono A b A' b' c :
  0 <= A -> 0 < b -> 0 <= A' -> 0 < b' ->
  c <= cexp A b c -> c <= cexp A' b' c ->
  A * b' <= A' * b ->
  ple (finish false (cexp A b c) (cman A b c))
      (finish false (cexp A' b' c) (cman A' b' c)).
Proof.
  intros HA Hb HA' Hb' Hc Hc' H.
  destruct (cman_facts A b c HA Hb Hc) as (P0 & P1 & P2).
  destruct (cman_facts A' b' c HA' Hb' Hc') as (P0' & P1' & P2').
  pose proof (cexp_mono A b A' b' c HA Hb Hb' H) as HE.
  assert (-149 <= cexp A b c) as L by (unfold cexp; rewrite fexp_eq; lia).
  assert (-149 <= cexp A' b' c) as L' by (unfold cexp; rewrite fexp_eq; lia).
  apply finish_mono; auto.
  destruct (Z.eq_dec (cexp A b c) (cexp A' b' c)) as [e|n].
  - left. split; [exact e|]. unfold cman. rewrite <- e.
    assert (0 < 2 ^ (cexp A b c - c)) by (apply Z.pow_pos_nonneg; lia).
    apply stq_mono; nia.
  - right. split; [lia|]. apply P2'. lia.
Qed.

Lemma Zdigits2_shift a b k :
  0 < b -> b <= a -> 0 <= k -> Zdigits2 (a * 2 ^ k / b) = Zdigits2 (a / b) + k.
Proof.
  intros Hb Ha Hk.
  assert (0 < a / b) as Hq by (apply Z.div_str_pos; lia).
  pose proof (Zdigits2_spec (a / b) Hq) as [L U].
  set (d := Zdigits2 (a / b)) in *.
  assert (0 < d) as Hd.
  { pose proof (Zdigits2_nonneg (a / b)) as N. fold d in N.
    destruct (Z.eq_dec d 0) as [Z|Z]; [|lia].
    rewrite Z in U. change (2 ^ 0) with 1 in U. lia. }
  assert (0 < 2 ^ k) by (apply Z.pow_pos_nonneg; lia).
  assert (0 < 2 ^ (d - 1)) by (apply Z.pow_pos_nonneg; lia).
  pose proof (Z.mul_div_le a b Hb).
  pose proof (Z.mul_succ_div_gt a b Hb).
  apply Zdigits2_unique; [|lia]. split.
  - apply Z.div_le_lower_bound; [lia|].
    replace (d + k - 1) with ((d - 1) + k) by lia. rewrite Z.pow_add_r by lia.
    assert (b * 2 ^ (d - 1) <= a) by nia.
    rewrite Z.mul_assoc. apply Z.mul_le_mono_nonneg_r; lia.
  - apply Z.div_lt_upper_bound; [lia|].
    rewrite Z.pow_add_r by lia.
    assert (a < b * 2 ^ d) by nia.
    rewrite Z.mul_assoc. apply Z.mul_lt_mono_pos_r; lia.
Qed.

(** What [binary_round_aux] does to a triple that locates [a / b] at the
    exponent [e], seen from any exponent [c] below. *)
Lemma round_aux_located s m e l a b c :
  0 <= a -> 0 < b -> c <= e ->
  m = a / b -> 4 * m + loc_code l = stq (2 * a) b ->
  e <= fexp prec emax (Zdigits2 m + e) ->
  let A := a * 2 ^ (e - c) in
  c <= cexp A b c
  /\ binary_round_aux prec emax s m e l = finish s (cexp A b c) (cman A b c).
Proof.
  intros Ha Hb Hc Hm Hl Hp A.
  assert (0 <= m) as Hm0 by (subst m; apply Z.div_pos; lia).
  assert (0 < 2 ^ (e - c)) as HK by (apply Z.pow_pos_nonneg; lia).
  assert (cexp A b c = fexp prec emax (Zdigits2 m + e)) as HE.
  { unfold cexp, A. destruct (Z_lt_le_dec a b) as [Lt|Le].
    - assert (m = 0) as -> by (subst m; apply Z.div_small; lia).
      cbn [Zdigits2] in *. rewrite fexp_eq in *.
      assert (a * 2 ^ (e - c) / b < 2 ^ (e - c)) as Q
          by (apply Z.div_lt_upper_bound; nia).
      assert (0 <= a * 2 ^ (e - c) / b) as Q0 by (apply Z.div_pos; nia).
      apply Zdigits2_lt_pow in Q; try lia. rewrite !fexp_eq. lia.
    - rewrite Zdigits2_shift by lia. rewrite <- Hm. f_equal. lia. }
  split; [lia|].
  rewrite round_aux_normal by assumption.
  replace (Z.max e (fexp prec emax (Zdigits2 m + e)))
    with (fexp prec emax (Zdigits2 m + e)) by lia.
  rewrite <- HE. f_equal. rewrite Hl.
  rewrite stq_stq by lia. unfold cman.
  set (E := cexp A b c) in *.
  assert (0 < 2 ^ (E - e)) by (apply Z.pow_pos_nonneg; lia).
  rewrite <- (stq_scale (2 * a) (b * 2 ^ (E - e)) (2 ^ (e - c))) by nia.
  f_equal; [unfold A; ring|].
  rewrite <- Z.mul_assoc, <- Z.pow_add_r by lia. do 2 f_equal. lia.
Qed.

Lemma round_aux_mono m e l a b m' e' l' a' b' c :
  0 <= a -> 0 < b -> c <= e ->
  m = a / b -> 4 * m + loc_code l = stq (2 * a) b ->
  e <= fexp prec emax (Zdigits2 m + e) ->
  0 <= a' -> 0 < b' -> c <= e' ->
  m' = a' / b' -> 4 * m' + loc_code l' = stq (2 * a') b' ->
  e' <= fexp prec emax (Zdigits2 m' + e') ->
  a * 2 ^ (e - c) * b' <= a' * 2 ^ (e' - c) * b ->
  ple (binary_round_aux prec emax false m e l)
      (binary_round_aux prec emax false m' e' l').
Proof.
  intros Ha Hb Hc Hm Hl Hp Ha' Hb' Hc' Hm' Hl' Hp' H.
  destruct (round_aux_located false m e l a b c Ha Hb Hc Hm Hl Hp) as [C ->].
  destruct (round_aux_located false m' e' l' a' b' c Ha' Hb' Hc' Hm' Hl' Hp') as [C' ->].
  assert (0 < 2 ^ (e - c)) by (apply Z.pow_pos_nonneg; lia).
  assert (0 < 2 ^ (e' - c)) by (apply Z.pow_pos_nonneg; lia).
  apply located_mono; auto; nia.
Qed.

(** *** [binary_round] *)

Lemma round_aux_sign s m e l :
  0 <= m -> sign_is s (binary_round_aux prec emax s m e l).
Proof.
  intros H. unfold binary_round_aux.
  destruct (shr_fexp_code m e l H) as (_ & HC & HN).
  destruct (shr_fexp prec emax m e l) as [mrs' e']. cbn [fst snd] in *.
  rewrite rne_rec.
  assert (0 <= rne (rec_code mrs')) as Hr.
  { apply rne_nonneg. unfold rec_code. destruct (shr_r mrs'), (shr_s mrs'); lia. }
  destruct (shr_fexp_code (rne (rec_code mrs')) e' loc_Exact Hr) as (_ & _ & HN2).
  destruct (shr_fexp prec emax (rne (rec_code mrs')) e' loc_Exact) as [mrs'' e''].
  cbn [fst snd] in *.
  destruct (shr_m mrs''); [reflexivity | | lia].
  destruct (e'' <=? emax - prec); reflexivity.
Qed.

Lemma pos_iter_xO m d : Z.pos (Pos.iter xO m d) = Z.pos m * 2 ^ Z.pos d.
Proof.
  induction d as [|d IH] using Pos.peano_ind.
  - cbn [Pos.iter]. rewrite Pos2Z.inj_xO. change (2 ^ 1) with 2. lia.
  - rewrite Pos.iter_succ, Pos2Z.inj_xO, IH, Pos2Z.inj_succ, Z.pow_succ_r by lia. lia.
Qed.

Lemma shl_align_spec mx ex ex' :
  snd (shl_align mx ex ex') = Z.min ex ex'
  /\ Z.pos (fst (shl_align mx ex ex')) = Z.pos mx * 2 ^ (ex - Z.min ex ex').
Proof.
  unfold shl_align. destruct (ex' - ex) as [|d|d] eqn:D; cbn [fst snd].
  - replace (Z.min ex ex') with ex by lia. rewrite Z.sub_diag. cbn. lia.
  - replace (Z.min ex ex') with ex by lia. rewrite Z.sub_diag. cbn. lia.
  - replace (Z.min ex ex') with ex' by lia. split; [reflexivity|].
    rewrite pos_iter_xO. do 2 f_equal. lia.
Qed.

(** [binary_round] hands [binary_round_aux] a triple that locates
    [mx * 2^ex] exactly and finely enough. *)
Lemma binary_round_triple s mx ex :
  exists mz ez,
    binary_round prec emax s mx ex = binary_round_aux prec emax s (Z.pos mz) ez loc_Exact
    /\ ez <= ex
    /\ Z.pos mz = Z.pos mx * 2 ^ (ex - ez)
    /\ ez <= fexp prec emax (Zdigits2 (Z.pos mz) + ez).
Proof.
  unfold binary_round.
  pose proof (shl_align_spec mx ex (fexp prec emax (Z.pos (digits2_pos mx) + ex))) as [S1 S2].
  destruct (shl_align mx ex _) as [mz ez]. cbn [fst snd] in *.
  exists mz, ez. split; [reflexivity|].
  rewrite <- S1 in S2.
  set (F := fexp prec emax (Z.pos (digits2_pos mx) + ex)) in *.
  split; [rewrite S1; apply Z.le_min_l|]. split; [exact S2|].
  assert (Zdigits2 (Z.pos mz) = Zdigits2 (Z.pos mx) + (ex - ez)) as ->.
  { rewrite S2. rewrite <- (Z.div_1_r (Z.pos mx * 2 ^ (ex - ez))).
    rewrite Zdigits2_shift by lia. now rewrite Z.div_1_r. }
  replace (Zdigits2 (Z.pos mx) + (ex - ez) + ez) with (Zdigits2 (Z.pos mx) + ex) by lia.
  change (Zdigits2 (Z.pos mx)) with (Z.pos (digits2_pos mx)). fold F.
  rewrite S1. apply Z.le_min_r.
Qed.

Lemma stq_1 a : stq (2 * a) 1 = 4 * a.
Proof. unfold stq. rewrite Z.div_1_r, Z.mod_1_r. cbn [Z.eqb]. lia. Qed.

Lemma binary_round_mono mx mx' ex :
  (mx <= mx')%positive ->
  ple (binary_round prec emax false mx ex) (binary_round prec emax false mx' ex).
Proof.
  intros H.
  destruct (binary_round_triple false mx ex) as (mz & ez & -> & L & V & P).
  destruct (binary_round_triple false mx' ex) as (mz' & ez' & -> & L' & V' & P').
  apply (round_aux_mono (Z.pos mz) ez loc_Exact (Z.pos mz) 1
                  (Z.pos mz') ez' loc_Exact (Z.pos mz') 1 (Z.min ez ez'));
    try lia; try (now rewrite Z.div_1_r); try (cbn [loc_code]; rewrite stq_1; lia).
  rewrite V, V', !Z.mul_1_r, <- !Z.mul_assoc, <- !Z.pow_add_r by lia.
  replace (ex - ez + (ez - Z.min ez ez')) with (ex - Z.min ez ez') by lia.
  replace (ex - ez' + (ez' - Z.min ez ez')) with (ex - Z.min ez ez') by lia.
  apply Z.mul_le_mono_nonneg_r; [apply Z.pow_nonneg; lia | lia].
Qed.

Lemma binary_round_sign s mx ex : sign_is s (binary_round prec emax s mx ex).
Proof.
  destruct (binary_round_triple s mx ex) as (mz & ez & -> & _).
  apply round_aux_sign. lia.
Qed.

Lemma binary_round_opp s mx ex :
  binary_round prec emax (negb s) mx ex = SFopp (binary_round prec emax s mx ex).
Proof.
  unfold binary_round. destruct (shl_align mx ex _) as [mz ez].
  apply binary_round_aux_opp.
Qed.

(** *** Division *)

Lemma stq_remainder r D :
  0 < D -> 0 <= r < D ->
  stq (2 * r) D
  = if r =? 0 then 0
    else match 2 * r ?= D with Lt => 1 | Eq => 2 | Gt => 3 end.
Proof.
  intros HD Hr. unfold stq.
  destruct (r =? 0) eqn:E0.
  - apply Z.eqb_eq in E0. subst r. cbn [Z.mul]. rewrite Z.div_0_l, Z.mod_0_l by lia. reflexivity.
  - apply Z.eqb_neq in E0. destruct (Z.compare_spec (2 * r) D) as [C|C|C].
    + rewrite C, Z.div_same, Z.mod_same by lia. reflexivity.
    + rewrite Z.div_small, Z.mod_small by lia.
      destruct (2 * r =? 0) eqn:E; [apply Z.eqb_eq in E; lia | reflexivity].
    + rewrite <- (Z.div_unique (2 * r) D 1 (2 * r - D)) by lia.
      rewrite <- (Z.mod_unique (2 * r) D 1 (2 * r - D)) by lia.
      destruct (2 * r - D =? 0) eqn:E; [apply Z.eqb_eq in E; lia | reflexivity].
Qed.

Lemma new_location_code D r :
  0 < D -> 0 <= r < D -> loc_code (new_location D r) = stq (2 * r) D.
Proof.
  intros HD Hr. rewrite stq_remainder by assumption.
  unfold new_location, new_location_even, new_location_odd.
  pose proof (Zmod_even D) as Ev.
  pose proof (Z.div_mod D 2 ltac:(lia)) as Dm.
  destruct (Z.even D); destruct (r =? 0) eqn:E0; try reflexivity.
  all: destruct (Z.compare_spec (2 * r) D) as [C'|C'|C'];
    try destruct (Z.compare_spec (2 * r + 1) D) as [C|C|C];
    try reflexivity; exfalso; lia.
Qed.

Lemma stq_quotient a D :
  0 <= a -> 0 < D ->
  4 * (a / D) + loc_code (new_location D (a mod D)) = stq (2 * a) D.
Proof.
  intros Ha HD.
  pose proof (Z.mod_pos_bound a D HD) as R.
  rewrite new_location_code by assumption.
  pose proof (Z.div_mod a D ltac:(lia)) as Dm.
  unfold stq.
  assert (2 * a = 2 * (a mod D) + 2 * (a / D) * D) as E by lia.
  assert (2 * a / D = 2 * (a mod D) / D + 2 * (a / D)) as ->
      by (rewrite E at 1; apply Z.div_add; lia).
  assert (2 * a mod D = (2 * (a mod D)) mod D) as ->
      by (rewrite E at 1; apply Z.mod_add; lia).
  lia.
Qed.

Lemma div_core_located m1 e1 m2 e2 :
  0 < m1 -> 0 < m2 ->
  exists q e' l,
    SFdiv_core_binary prec emax m1 e1 m2 e2 = (q, e', l)
    /\ e' <= e1 - e2
    /\ q = m1 * 2 ^ (e1 - e2 - e') / m2
    /\ 4 * q + loc_code l = stq (2 * (m1 * 2 ^ (e1 - e2 - e'))) m2
    /\ e' <= fexp prec emax (Zdigits2 q + e').
Proof.
  intros H1 H2. unfold SFdiv_core_binary.
  set (d1 := Zdigits2 m1). set (d2 := Zdigits2 m2).
  set (e' := Z.min (fexp prec emax (d1 + e1 - (d2 + e2))) (e1 - e2)).
  set (s := e1 - e2 - e').
  assert (0 <= s) as Hs by (subst s e'; lia).
  set (m' := match s with Z.pos _ => Z.shiftl m1 s | 0 => m1 | Z.neg _ => 0 end).
  assert (m' = m1 * 2 ^ s) as Hm'.
  { subst m'. destruct s as [|p|p] eqn:S; [cbn; lia | | lia].
    apply Z.shiftl_mul_pow2. lia. }
  assert (0 < 2 ^ s) as Hp by (apply Z.pow_pos_nonneg; lia).
  pose proof (Z.div_eucl_eq m' m2 ltac:(lia)) as DE.
  assert (m' / m2 = fst (Z.div_eucl m' m2)) as Hq by reflexivity.
  assert (m' mod m2 = snd (Z.div_eucl m' m2)) as Hr by reflexivity.
  destruct (Z.div_eucl m' m2) as [q r]. cbn [fst snd] in *.
  exists q, e', (new_location m2 r). split; [reflexivity|].
  split; [subst e'; lia|]. fold s. rewrite <- Hm'. split; [congruence|].
  split.
  - subst q r. apply stq_quotient; nia.
  -     assert (d1 + s - d2 <= Zdigits2 q) as Hd.
    { pose proof (Zdigits2_nonneg q).
      destruct (Z_le_gt_dec (d1 + s - d2) 0); [lia|].
      assert (0 <= q) by (subst q; apply Z.div_pos; nia).
      apply Zdigits2_ge_pow; [assumption | lia |].
      subst q. apply Z.div_le_lower_bound; [lia|].
      pose proof (Zdigits2_spec m1 H1) as [L1 _]. fold d1 in L1.
      pose proof (Zdigits2_spec m2 H2) as [_ U2]. fold d2 in U2.
      rewrite Hm'.
      assert (0 < d1) by (destruct m1; cbn in *; lia).
      assert (0 < d2) by (destruct m2; cbn in *; lia).
      assert (2 ^ (d1 + s - d2 - 1) * 2 ^ d2 = 2 ^ (d1 - 1) * 2 ^ s) as Eq.
      { rewrite <- !Z.pow_add_r by lia. f_equal. lia. }
      assert (0 < 2 ^ (d1 + s - d2 - 1)) by (apply Z.pow_pos_nonneg; lia).
      nia. }
    assert (s = e1 - e2 - e') as Hs' by reflexivity.
    assert (e' <= fexp prec emax (d1 + e1 - (d2 + e2))) as He' by apply Z.le_min_l.
    clearbody m' s e'. rewrite !fexp_eq in *. lia.
Qed.

Lemma div_mono m e m' e' md ed :
  ple (S754_finite false m e) (S754_finite false m' e') ->
  ple (SFdiv prec emax (S754_finite false m e) (S754_finite false md ed))
      (SFdiv prec emax (S754_finite false m' e') (S754_finite false md ed)).
Proof.
  intros H. unfold SFdiv.
  destruct (div_core_located (Z.pos m) e (Z.pos md) ed)
    as (q & x & l & -> & L & Q & C & P);
    try lia.
  destruct (div_core_located (Z.pos m') e' (Z.pos md) ed)
    as (q' & x' & l' & -> & L' & Q' & C' & P');
    try lia.
  cbn [xorb].
  assert (0 < 2 ^ (e - ed - x)) by (apply Z.pow_pos_nonneg; lia).
  assert (0 < 2 ^ (e' - ed - x')) by (apply Z.pow_pos_nonneg; lia).
  apply (round_aux_mono q x l (Z.pos m * 2 ^ (e - ed - x)) (Z.pos md)
                  q' x' l' (Z.pos m' * 2 ^ (e' - ed - x')) (Z.pos md) (Z.min x x'));
    try lia; try assumption.
  apply Z.mul_le_mono_nonneg_r; [lia|].
  rewrite <- !Z.mul_assoc, <- !Z.pow_add_r by lia.
  set (c := Z.min x x').
  replace (e - ed - x + (x - c)) with (e - ed - c) by lia.
  replace (e' - ed - x' + (x' - c)) with (e' - ed - c) by lia.
  cbn [ple] in H. destruct H as [[<- Hm]|[He [Hm Hm']]].
  - apply Z.mul_le_mono_nonneg_r; [apply Z.pow_nonneg; lia | lia].
  - replace (e' - ed - c) with ((e' - e - 1) + 1 + (e - ed - c)) by lia.
    rewrite !Z.pow_add_r by lia. change (2 ^ 1) with 2.
    assert (0 < 2 ^ (e - ed - c)) by (apply Z.pow_pos_nonneg; lia).
    assert (0 < 2 ^ (e' - e - 1)) by (apply Z.pow_pos_nonneg; lia).
    change (2 ^ 24) with 16777216 in *.
    set (K := 2 ^ (e - ed - c)) in *. set (J := 2 ^ (e' - e - 1)) in *.
    apply Z.le_trans with (2 * Z.pos m' * K).
    + apply Z.mul_le_mono_nonneg_r; lia.
    + nia.
Qed.

(** *** The order on all floats *)

Lemma ple_nonneg x y : ple x y -> nonneg x /\ nonneg y.
Proof. destruct x as [?|[]| |[]], y as [?|[]| |[]]; cbn; tauto. Qed.

Lemma sign_nonneg f : sign_is false f -> nonneg f.
Proof. destruct f as [?|[]| |[]]; cbn; intros; tauto || discriminate. Qed.

Lemma nonneg_not_nan f : nonneg f -> is_nan f = false.
Proof. destruct f as [?|[]| |[]]; cbn; tauto. Qed.

Lemma ple_zero_l s y : nonneg y -> ple (S754_zero s) y.
Proof. destruct y as [?|[]| |[]]; cbn; tauto. Qed.

Lemma ple_inf_r x : nonneg x -> ple x (S754_infinity false).
Proof. destruct x as [?|[]| |[]]; cbn; tauto. Qed.

Lemma ple_refl x : nonneg x -> ple x x.
Proof. destruct x as [?|[]| |[]]; cbn; try tauto. intros _. left. lia. Qed.

Lemma neg_neg (f : float) : (- - f)%f32 = f.
Proof. destruct f as [[]|[]| |[]]; reflexivity. Qed.

Lemma ple_leb x y : ple x y -> (x <=? y)%f32 = true.
Proof.
  intros H. destruct (ple_nonneg _ _ H) as [Nx Ny].
  apply leb_rank; try now apply nonneg_not_nan.
  destruct x as [?|[]| |[] m e], y as [?|[]| |[] m' e']; cbn in *; try tauto; lia.
Qed.

Lemma leb_neg x y : (- y <=? - x)%f32 = (x <=? y)%f32.
Proof.
  unfold leb, SFleb, SFcompare.
  destruct x as [[]|[]| |[] m e], y as [[]|[]| |[] m' e']; cbn; try reflexivity.
  all: rewrite (Z.compare_antisym e e');
    change (Pos.compare_cont Eq m' m) with (Pos.compare m' m);
    change (Pos.compare_cont Eq m m') with (Pos.compare m m');
    rewrite (Pos.compare_antisym m m');
    destruct (e ?= e'); cbn; try reflexivity;
    destruct (m ?= m')%positive; reflexivity.
Qed.

Lemma ord_leb x y : ord x y -> (x <=? y)%f32 = true.
Proof.
  intros [H|[H|[Nx Ny]]].
  - now apply ple_leb.
  - rewrite <- leb_neg. now apply ple_leb.
  - destruct x as [?|[]| |[]], y as [?|[]| |[]]; cbn in *; tauto || reflexivity.
Qed.

Lemma binary_normalize_ord m m' e z z' :
  m <= m' ->
  ord (binary_normalize prec emax m e z) (binary_normalize prec emax m' e z').
Proof.
  intros H. unfold binary_normalize.
  destruct m as [|p|p], m' as [|p'|p']; try lia.
  - left. exact I.
  - left. apply ple_zero_l, sign_nonneg, binary_round_sign.
  - left. apply binary_round_mono. lia.
  - right; right. split; [|exact I].
    change true with (negb false). rewrite binary_round_opp, neg_neg.
    apply sign_nonneg, binary_round_sign.
  - right; right. split; [|apply sign_nonneg, binary_round_sign].
    change true with (negb false). rewrite binary_round_opp, neg_neg.
    apply sign_nonneg, binary_round_sign.
  - right; left. change true with (negb false).
    rewrite !binary_round_opp. unfold neg. rewrite !neg_neg.
    apply binary_round_mono. lia.
Qed.

(** *** Sums, differences and quotients in order *)

Lemma ord_refl x : is_nan x = false -> ord x x.
Proof.
  destruct x as [?|[]| |[] m e]; try discriminate; intros _.
  - left. exact I.
  - right; left. exact I.
  - left. exact I.
  - right; left. cbn. left. lia.
  - left. cbn. left. lia.
Qed.

Lemma add_sub_ord nb s :
  nonneg s ->
  is_nan (nb + s)%f32 = false -> is_nan (nb - s)%f32 = false ->
  ord (nb - s)%f32 (nb + s)%f32.
Proof.
  intros Hs Ha Hb.
  destruct s as [ss|[]| |[] ms es]; cbn in Hs; try tauto.
  - destruct nb as [sb|sb| |sb mb eb]; try discriminate.
    + left. destruct sb, ss; exact I.
    + now apply ord_refl.
    + now apply ord_refl.
  - destruct nb as [sb|[]| |sb mb eb]; try discriminate.
    + right; right. split; exact I.
    + right; right. split; exact I.
  - destruct nb as [sb|sb| |sb mb eb]; try discriminate.
    + right; right. split; exact I.
    + now apply ord_refl.
    + unfold add, sub, SFadd, SFsub. apply binary_normalize_ord.
      cbn [cond_Zopp]. lia.
Qed.

Lemma div_finite_sign sn mn en md ed :
  sign_is sn (SFdiv prec emax (S754_finite sn mn en) (S754_finite false md ed)).
Proof.
  unfold SFdiv.
  destruct (div_core_located (Z.pos mn) en (Z.pos md) ed) as (q & x & l & -> & _ & Q & _);
    try lia.
  rewrite xorb_false_r. apply round_aux_sign. subst q.
  apply Z.div_pos; [|lia].
  destruct (pow2_pos (en - ed - x)) as [P|P]; [lia|].
  rewrite Z.pow_neg_r by lia. lia.
Qed.

Lemma div_nonneg n d :
  nonneg n -> sign_is false d -> is_nan (n / d)%f32 = false -> nonneg (n / d)%f32.
Proof.
  intros Hn Hd Ht.
  destruct d as [[]|[]| |[] md ed]; cbn in Hd; try discriminate; try tauto;
    destruct n as [sn|[]| |[] mn en]; cbn in Hn; try tauto; try discriminate;
    try exact I.
  apply sign_nonneg, div_finite_sign.
Qed.

Lemma div_ple n2 n1 d :
  ple n2 n1 -> sign_is false d ->
  is_nan (n2 / d)%f32 = false -> is_nan (n1 / d)%f32 = false ->
  ple (n2 / d)%f32 (n1 / d)%f32.
Proof.
  intros H Hd H2 H1.
  destruct (ple_nonneg _ _ H) as [N2 N1].
  pose proof (div_nonneg _ _ N2 Hd H2) as T2.
  pose proof (div_nonneg _ _ N1 Hd H1) as T1.
  destruct n2 as [s2|[]| |[] m2 e2]; cbn in N2; try tauto.
  - replace (S754_zero s2 / d)%f32 with (S754_zero s2) in *
      by (destruct d as [[]|[]| |[]]; cbn in Hd |- *; try discriminate; try tauto;
          now destruct s2).
    now apply ple_zero_l.
  - destruct n1 as [s1|[]| |[] m1 e1]; cbn in H; try tauto.
    now apply ple_refl.
  - destruct n1 as [s1|[]| |[] m1 e1]; cbn in H; try tauto.
    + replace (S754_infinity false / d)%f32 with (S754_infinity false) in *
        by (destruct d as [[]|[]| |[]]; cbn in Hd, H1 |- *; try discriminate; tauto).
      now apply ple_inf_r.
    + destruct d as [[]|[]| |[] md ed]; cbn in Hd; try discriminate; try tauto;
        try exact I.
      apply div_mono. exact H.
Qed.

Lemma div_ord n2 n1 d :
  ord n2 n1 -> sign_is false d ->
  is_nan (n2 / d)%f32 = false -> is_nan (n1 / d)%f32 = false ->
  ord (n2 / d)%f32 (n1 / d)%f32.
Proof.
  intros [H|[H|[N2 N1]]] Hd H2 H1.
  - left. now apply div_ple.
  - right; left. rewrite <- !div_neg.
    apply div_ple; auto; now rewrite div_neg, neg_not_nan.
  - right; right. split.
    + rewrite <- div_neg. apply div_nonneg; auto. now rewrite div_neg, neg_not_nan.
    + now apply div_nonneg.
Qed.

(** *** Square roots and doubles *)

Lemma sqrt_nonneg f : nonneg f -> is_nan (sqrt f) = false -> nonneg (sqrt f).
Proof.
  destruct f as [?|[]| |[] m e]; cbn; try tauto. intros _ _.
  unfold sqrt, SFsqrt.
  destruct (SFsqrt_core_binary prec emax (Z.pos m) e) as [[mz ez] lz] eqn:C.
  apply sign_nonneg, round_aux_sign.
  unfold SFsqrt_core_binary in C.
  match type of C with
  | context [Z.sqrtrem ?x] =>
      pose proof (Z.sqrtrem_sqrt x) as Q; pose proof (Z.sqrt_nonneg x) as N;
      destruct (Z.sqrtrem x) as [q r]
  end.
  cbn [fst] in Q. inversion C. lia.
Qed.

Lemma leb_zero_nonneg f : (zero <=? f)%f32 = true -> nonneg f.
Proof. destruct f as [?|[]| |[]]; cbn; try discriminate; tauto. Qed.

Lemma ltb_zero_sign f : (zero <? f)%f32 = true -> sign_is false f.
Proof. destruct f as [?|[]| |[]]; cbn; try discriminate; reflexivity. Qed.

Lemma double_sign f : sign_is false f -> is_nan (of_int 2 * f)%f32 = false
                      -> sign_is false (of_int 2 * f)%f32.
Proof.
  destruct f as [[]|[]| |[] m e]; cbn; try discriminate; try reflexivity.
  intros _ _. apply round_aux_sign. lia.
Qed.

Lemma div_nan_l n d : is_nan (n / d)%f32 = false -> is_nan n = false.
Proof. destruct n; try reflexivity. discriminate. Qed.

Lemma div_nan_r n d : is_nan (n / d)%f32 = false -> is_nan d = false.
Proof. destruct n, d; try reflexivity; discriminate. Qed.

Lemma add_nan_r a s : is_nan (a + s)%f32 = false -> is_nan s = false.
Proof. destruct a, s; try reflexivity; discriminate. Qed.

(** ** Signs of sums and products *)



Lemma mul_self_nonneg (f : float) :
  is_nan (f * f)%f32 = false -> nonneg (f * f)%f32.
Proof.
  destruct f as [[]|[]| |s m e]; cbn; try tauto; try discriminate.
  intros _. rewrite xorb_nilpotent. apply sign_nonneg, round_aux_sign. lia.
Qed.

Lemma add_nonneg (a b : float) : nonneg a -> nonneg b -> nonneg (a + b)%f32.
Proof.
  destruct a as [[]|[]| |[] ma ea], b as [[]|[]| |[] mb eb]; cbn; try tauto.
  intros _ _. apply sign_nonneg, binary_round_sign.
Qed.



Lemma dot_self_nonneg (v : Vector3) :
  is_nan (Vector3DotProduct v v) = false -> nonneg (Vector3DotProduct v v).
Proof.
  unfold Vector3DotProduct. intros H.
  assert (forall a b : float, is_nan (a + b)%f32 = false ->
                              is_nan a = false /\ is_nan b = false) as N
      by (intros a b; destruct a, b; try discriminate; auto).
  apply N in H as [H Hz]. apply N in H as [Hx Hy].
  repeat apply add_nonneg; now apply mul_self_nonneg.
Qed.


(** ** The size of the rounding errors

    Rounding to nearest moves a quantity by at most half a unit of the last
    place, which in the normal range is one part in [2^24] of the result.
    This is shown on the sticky quotients of [binary_round_aux] and then
    for the product, the quotient and the square root. *)



















(** ** The roots of a ray from the centre *)









(** ** The two roots, in order *)

(** In exact arithmetic the quadratic of a ray through the centre, with
    [origin - center = k * direction], has the discriminant [4 a r^2], so
    that its roots [(-b + sqrt D) / (2 a)] and [(-b - sqrt D) / (2 a)]
    differ by [2 r / |direction|].  The floats only come close to that. *)
Remark central_discriminant_exact (dx dy dz k r : Q) :
  (let a := dx * dx + dy * dy + dz * dz in
   let b := 2 * (k * dx * dx + k * dy * dy + k * dz * dz) in
   let c := k * dx * (k * dx) + k * dy * (k * dy) + k * dz * (k * dz) - r * r in
   b * b - 4 * a * c == 4 * a * (r * r))%Q.
Proof. cbv zeta. ring. Qed.




(** C10, as amended.  When the [a] computed is positive, the discriminant
    computed is not negative and neither root is NaN, the first root is
    greater than or equal to the second. *)
Theorem IntersectRaySphere_roots_ordered :
  forall (origin direction : Vector3) (sphere : Sphere),
    let k1 := quad_k1 direction in
    let k2 := quad_k2 origin direction sphere in
    let k3 := quad_k3 origin sphere in
    let roots := IntersectRaySphere origin direction sphere in
    (zero <? k1)%f32 = true ->
    (zero <=? discriminant_of k1 k2 k3)%f32 = true ->
    is_nan (fst roots) = false ->
    is_nan (snd roots) = false ->
    (snd roots <=? fst roots)%f32 = true.
Proof.
  intros origin direction sphere k1 k2 k3 roots Hk Hd. subst roots.
  rewrite IntersectRaySphere_discriminant. cbv zeta. fold k1 k2 k3.
  rewrite (leb_ltb_false _ _ Hd). cbn [fst snd]. intros H1 H2.
  apply ord_leb, div_ord; auto.
  - apply add_sub_ord.
    + apply sqrt_nonneg; [now apply leb_zero_nonneg|].
      eapply add_nan_r, div_nan_l, H1.
    + eapply div_nan_l, H1.
    + eapply div_nan_l, H2.
  - apply double_sign; [now apply ltb_zero_sign|]. eapply div_nan_r, H1.
Qed.

Lemma IntersectRaySphere_roots_ordered_witness :
  let roots := IntersectRaySphere CameraPosition (vec 0 0 1)
                 (mkSphere (vec 0 0 3) (of_int 1) (mkColor 255 0 0 255)) in
  roots = (of_int 4, of_int 2) /\ (snd roots <=? fst roots)%f32 = true.
Proof.
  split; [reflexivity|].
  apply (IntersectRaySphere_roots_ordered
           CameraPosition (vec 0 0 1)
           (mkSphere (vec 0 0 3) (of_int 1) (mkColor 255 0 0 255)));
    vm_compute; reflexivity.
Defined.

(** C10, as stated, fails for the sphere of radius 1 around the origin and
    the ray from its centre with direction (2^64, 0, 0): [a] overflows to
    [+infinity], which is positive, the discriminant is [+infinity], which
    is not negative, and both roots are NaN, so that the first is not
    greater than or equal to the second. *)
Lemma IntersectRaySphere_roots_nan :
  let sphere := mkSphere (vec 0 0 0) (of_int 1) WHITE in
  let direction := vec (2 ^ 64) 0 0 in
  let roots := IntersectRaySphere (center sphere) direction sphere in
  raylib.x direction = S754_finite false 8388608 41
  /\ valid_binary prec emax (raylib.x direction) = true
  /\ (zero <? quad_k1 direction)%f32 = true
  /\ (zero <=? discriminant_of (quad_k1 direction)
                               (quad_k2 (center sphere) direction sphere)
                               (quad_k3 (center sphere) sphere))%f32 = true
  /\ roots = (S754_nan, S754_nan)
  /\ (snd roots <=? fst roots)%f32 = false.
Proof. repeat split. Qed.

(** * Further properties of the code *)

(** ** Drawing on the canvas *)

Lemma texel_draw_pixel (t : RenderTexture2D) (x y : Z) (color : Color) (px py : Z) :
  0 <= x < tex_width t -> 0 <= y < tex_height t ->
  texel (draw (DrawPixel x y color) t) px py
  = if (x =? px) && (y =? py) then Some color else texel t px py.
Proof.
  intros Hx Hy. unfold texel. cbn.
  destruct (x =? px) eqn:Ex, (y =? py) eqn:Ey; cbn;
    try (destruct (_ && _ && _ && _); reflexivity).
  apply Z.eqb_eq in Ex, Ey. subst.
  replace (0 <=? px) with true by (symmetry; apply Z.leb_le; lia).
  replace (px <? tex_width t) with true by (symmetry; apply Z.ltb_lt; lia).
  replace (0 <=? py) with true by (symmetry; apply Z.leb_le; lia).
  replace (py <? tex_height t) with true by (symmetry; apply Z.ltb_lt; lia).
  reflexivity.
Qed.

(** X1.  Reading a pixel after [PutPixel]: when [(x, y)] is on the canvas
    the pixel [(x, y)] holds the new colour and every other pixel what it
    held; when it is not, every pixel holds what it held. *)
Theorem PutPixel_read_back (this : Canvas) (x y : Z) (color : Color) (px py : Z) :
  tex_width (renderTexture this) = CanvasWidth this ->
  tex_height (renderTexture this) = CanvasHeight this ->
  texel (renderTexture (PutPixel this x y color)) px py
  = if IsInBounds this x y && (x =? px) && (y =? py) then Some color
    else texel (renderTexture this) px py.
Proof.
  intros HW HH. unfold PutPixel.
  destruct (IsInBounds this x y) eqn:B; [|reflexivity].
  apply IsInBounds_iff in B. cbn [renderTexture andb].
  apply texel_draw_pixel; lia.
Qed.

Lemma PutPixel_read_back_witness :
  texel (renderTexture (PutPixel main_canvas 10 20 BLACK)) 10 20 = Some BLACK
  /\ texel (renderTexture (PutPixel main_canvas 10 20 BLACK)) 10 21 = Some WHITE
  /\ texel (renderTexture (PutPixel main_canvas 10 600 BLACK)) 10 599 = Some WHITE.
Proof.
  split; [|split].
  - rewrite (PutPixel_read_back main_canvas 10 20 BLACK 10 20); reflexivity.
  - rewrite (PutPixel_read_back main_canvas 10 20 BLACK 10 21); reflexivity.
  - rewrite (PutPixel_read_back main_canvas 10 600 BLACK 10 599); reflexivity.
Defined.

Lemma call_sized (w h : Z) (this : Canvas) (c : CanvasCall) :
  sized w h this -> sized w h (call this c).
Proof.
  intros S. destruct c as [Vx Vy d|x y col|x y col|col]; cbn [call];
    unfold PutPixelCentered, PutPixel; try destruct (IsInBounds _ _ _);
    exact S.
Qed.

Lemma run_calls_sized (w h : Z) (l : list CanvasCall) (this : Canvas) :
  sized w h this -> sized w h (run_calls this l).
Proof.
  unfold run_calls. revert this.
  induction l as [|c l IH]; intros this S; cbn [fold_left]; [exact S|].
  apply IH, call_sized, S.
Qed.

Lemma PutPixel_writes_within (w h : Z) (this : Canvas) (x y : Z) (col : Color) :
  CanvasWidth this = w -> CanvasHeight this = h ->
  writes_within w h (tex_calls (renderTexture this)) ->
  writes_within w h (tex_calls (renderTexture (PutPixel this x y col))).
Proof.
  intros HW HH I. unfold PutPixel. destruct (IsInBounds this x y) eqn:B; [|exact I].
  apply IsInBounds_iff in B. cbn. split; [lia | exact I].
Qed.

Lemma PutPixel_texel_of (this : Canvas) (x y : Z) (col : Color) (px py : Z) :
  texel_of (tex_calls (renderTexture this)) px py <> None ->
  texel_of (tex_calls (renderTexture (PutPixel this x y col))) px py <> None.
Proof.
  intros I. unfold PutPixel. destruct (IsInBounds this x y); [|exact I].
  cbn. destruct (_ && _); [discriminate | exact I].
Qed.

Lemma call_well_drawn (w h : Z) (this : Canvas) (c : CanvasCall) :
  well_drawn w h this -> well_drawn w h (call this c).
Proof.
  intros (S & Wr & T). split; [now apply call_sized|].
  destruct S as (HW & HH & _).
  destruct c as [Vx Vy d|x y col|x y col|col]; cbn [call].
  - split; assumption.
  - split; [now apply PutPixel_writes_within | intros; now apply PutPixel_texel_of].
  - unfold PutPixelCentered.
    split; [now apply PutPixel_writes_within | intros; now apply PutPixel_texel_of].
  - split; [exact Wr | discriminate].
Qed.

Lemma run_calls_well_drawn (w h : Z) (l : list CanvasCall) (this : Canvas) :
  well_drawn w h this -> well_drawn w h (run_calls this l).
Proof.
  unfold run_calls. revert this.
  induction l as [|c l IH]; intros this S; cbn [fold_left]; [exact S|].
  apply IH, call_well_drawn, S.
Qed.

(** X2.  From the constructor on, whatever methods are called, with whatever
    arguments: the canvas and its texture keep the size the constructor was
    given, every [DrawPixel] that reached the texture lies inside of it, and
    the pixels that hold a colour are those [IsInBounds] accepts. *)
Theorem run_calls_invariant (w h : Z) (vw vh d : float) (bg : Color)
        (l : list CanvasCall) :
  let this := run_calls (Canvas_new w h vw vh d bg) l in
  GetWidth this = w /\ GetHeight this = h
  /\ tex_width (renderTexture this) = w /\ tex_height (renderTexture this) = h
  /\ writes_within w h (tex_calls (renderTexture this))
  /\ forall px py, texel (renderTexture this) px py <> None
                   <-> IsInBounds this px py = true.
Proof.
  intros this.
  assert (well_drawn w h this) as ((HW & HH & TW & TH) & Wr & T).
  { apply run_calls_well_drawn. repeat split. discriminate. }
  unfold GetWidth, GetHeight. repeat (split; [assumption|]).
  intros px py. rewrite IsInBounds_iff, HW, HH. unfold texel. rewrite TW, TH.
  destruct (_ && _ && _ && _) eqn:B.
  - rewrite !andb_true_iff in B. split; [lia | intros _; apply T].
  - split; [congruence|]. intros I. exfalso.
    rewrite <- not_true_iff_false in B. apply B.
    rewrite !andb_true_iff, Z.leb_le, Z.leb_le, !Z.ltb_lt. lia.
Qed.

(** X3.  [Clear] forgets what was drawn: two canvases of one size show,
    after [Clear] with one colour and one run of calls, the same pixels. *)
Theorem Clear_forgets (this that : Canvas) (color : Color) (l : list CanvasCall) :
  CanvasWidth this = CanvasWidth that ->
  CanvasHeight this = CanvasHeight that ->
  tex_width (renderTexture this) = tex_width (renderTexture that) ->
  tex_height (renderTexture this) = tex_height (renderTexture that) ->
  forall px py,
    texel (renderTexture (run_calls (Clear this color) l)) px py
    = texel (renderTexture (run_calls (Clear that color) l)) px py.
Proof.
  intros HW HH TW TH.
  assert (forall c1 c2,
             CanvasWidth c1 = CanvasWidth c2 ->
             CanvasHeight c1 = CanvasHeight c2 ->
             tex_width (renderTexture c1) = tex_width (renderTexture c2) ->
             tex_height (renderTexture c1) = tex_height (renderTexture c2) ->
             (forall px py, texel_of (tex_calls (renderTexture c1)) px py
                            = texel_of (tex_calls (renderTexture c2)) px py) ->
             forall px py, texel (renderTexture (run_calls c1 l)) px py
                           = texel (renderTexture (run_calls c2 l)) px py) as G.
  { unfold run_calls. induction l as [|c l IH]; intros c1 c2 W H W' H' T px py;
      cbn [fold_left].
    - unfold texel. now rewrite W', H', T.
    - assert (forall x y col,
                 CanvasWidth (PutPixel c1 x y col) = CanvasWidth (PutPixel c2 x y col)
                 /\ CanvasHeight (PutPixel c1 x y col) = CanvasHeight (PutPixel c2 x y col)
                 /\ tex_width (renderTexture (PutPixel c1 x y col))
                    = tex_width (renderTexture (PutPixel c2 x y col))
                 /\ tex_height (renderTexture (PutPixel c1 x y col))
                    = tex_height (renderTexture (PutPixel c2 x y col))
                 /\ forall px py,
                      texel_of (tex_calls (renderTexture (PutPixel c1 x y col))) px py
                      = texel_of (tex_calls (renderTexture (PutPixel c2 x y col))) px py)
        as P.
      { intros x y col. unfold PutPixel, IsInBounds. rewrite W, H.
        destruct (_ && _ && _ && _); cbn [renderTexture tex_calls draw CanvasWidth CanvasHeight tex_width tex_height];
          repeat (split; [first [assumption|reflexivity]|]); [|exact T].
        intros qx qy. cbn [texel_of]. now rewrite T. }
      destruct c as [Vx Vy d|x y col|x y col|col]; cbn [call].
      + apply IH; assumption.
      + destruct (P x y col) as (A & B & C & D & E). apply IH; assumption.
      + unfold PutPixelCentered. rewrite W, H.
        destruct (P (Z.quot (CanvasWidth c2) 2 + x) (Z.quot (CanvasHeight c2) 2 - y) col)
          as (A & B & C & D & E).
        apply IH; assumption.
      + apply IH; cbn; auto. }
  apply G; cbn; auto.
Qed.

Lemma Clear_forgets_witness :
  texel (renderTexture (run_calls (Clear main_canvas BLACK) [CallPutPixel 1 2 WHITE])) 1 2
  = texel (renderTexture
             (run_calls (Clear (PutPixel main_canvas 1 2 BLACK) BLACK)
                        [CallPutPixel 1 2 WHITE])) 1 2.
Proof.
  apply (Clear_forgets main_canvas (PutPixel main_canvas 1 2 BLACK) BLACK);
    reflexivity.
Defined.

(** X4.  [PutPixelCentered] draws the centred pixel [(x, y)] exactly when
    [-(W/2) <= x < W - W/2] and [H/2 - H < y <= H/2]; then it draws at the
    column [W/2 + x] and the row [H/2 - y], so that a larger [y] is a higher
    row, and no other pixel changes.  Otherwise it leaves the canvas as it
    is. *)
Theorem PutPixelCentered_draws (this : Canvas) (x y : Z) (color : Color) :
  0 < CanvasWidth this -> 0 < CanvasHeight this ->
  tex_width (renderTexture this) = CanvasWidth this ->
  tex_height (renderTexture this) = CanvasHeight this ->
  let W := CanvasWidth this in
  let H := CanvasHeight this in
  let drawn := - Z.quot W 2 <= x < W - Z.quot W 2
               /\ Z.quot H 2 - H < y <= Z.quot H 2 in
  (drawn ->
   renderTexture (PutPixelCentered this x y color)
   = draw (DrawPixel (Z.quot W 2 + x) (Z.quot H 2 - y) color) (renderTexture this)
   /\ forall px py,
        texel (renderTexture (PutPixelCentered this x y color)) px py
        = if (px =? Z.quot W 2 + x) && (py =? Z.quot H 2 - y) then Some color
          else texel (renderTexture this) px py)
  /\ (~ drawn -> PutPixelCentered this x y color = this).
Proof.
  intros HW HH TW TH W H drawn. subst W H drawn.
  pose proof (PutPixelCentered_drawn_iff this x y HW HH) as D.
  unfold PutPixelCentered. split.
  - intros I. apply D in I. split.
    + unfold PutPixel. now rewrite I.
    + intros px py. rewrite PutPixel_texel by assumption.
      now rewrite (Z.eqb_sym px), (Z.eqb_sym py).
  - intros N. unfold PutPixel.
    destruct (IsInBounds this _ _); [|reflexivity].
    exfalso. now apply N, D.
Qed.

Lemma PutPixelCentered_draws_witness :
  texel (renderTexture (PutPixelCentered main_canvas (-400) 300 BLACK)) 0 0 = Some BLACK
  /\ PutPixelCentered main_canvas 0 (-300) BLACK = main_canvas.
Proof.
  split.
  - rewrite (proj2 (proj1 (PutPixelCentered_draws main_canvas (-400) 300 BLACK
                     ltac:(reflexivity) ltac:(reflexivity) eq_refl eq_refl)
                     ltac:(cbn; lia))).
    reflexivity.
  - apply (proj2 (PutPixelCentered_draws main_canvas 0 (-300) BLACK
                     ltac:(reflexivity) ltac:(reflexivity) eq_refl eq_refl)).
    cbn. lia.
Defined.

(** X5.  Where [IsInBoundsCentered] and [PutPixelCentered] disagree.  A
    pixel the predicate accepts is not drawn only on the row [y = -(H/2)],
    and only when the height is even; a pixel the predicate rejects is drawn
    only on the row [y = H/2] or, when the width is odd, in the column
    [x = W/2]. *)
Theorem IsInBoundsCentered_vs_drawn (this : Canvas) (x y : Z) :
  0 < CanvasWidth this -> 0 < CanvasHeight this ->
  let W := CanvasWidth this in
  let H := CanvasHeight this in
  let drawn := IsInBounds this (Z.quot W 2 + x) (Z.quot H 2 - y) in
  (IsInBoundsCentered this x y = true /\ drawn = false
   <-> H = 2 * Z.quot H 2 /\ y = - Z.quot H 2
       /\ - Z.quot W 2 <= x < Z.quot W 2)
  /\ (IsInBoundsCentered this x y = false /\ drawn = true
      <-> (y = Z.quot H 2 /\ - Z.quot W 2 <= x < W - Z.quot W 2)
          \/ (W = 2 * Z.quot W 2 + 1 /\ x = Z.quot W 2
              /\ Z.quot H 2 - H < y <= Z.quot H 2)).
Proof.
  intros HW HH W H drawn.
  pose proof (PutPixelCentered_drawn_iff this x y HW HH) as D.
  pose proof (IsInBoundsCentered_iff this x y) as C.
  fold W H in D, C. fold drawn in D.
  rewrite !Z.quot_opp_l in C by lia.
  assert (0 <= 2 * Z.quot W 2 <= W /\ W <= 2 * Z.quot W 2 + 1) as QW.
  { rewrite Z.quot_div_nonneg by lia.
    pose proof (Z.div_mod W 2). pose proof (Z.mod_pos_bound W 2). lia. }
  assert (0 <= 2 * Z.quot H 2 <= H /\ H <= 2 * Z.quot H 2 + 1) as QH.
  { rewrite Z.quot_div_nonneg by lia.
    pose proof (Z.div_mod H 2). pose proof (Z.mod_pos_bound H 2). lia. }
  rewrite <- !not_true_iff_false, D, C.
  clear D C. subst drawn W H.
  generalize dependent (Z.quot (CanvasWidth this) 2).
  generalize dependent (Z.quot (CanvasHeight this) 2).
  intros qH QH qW QW. split; split; intros I; lia.
Qed.

Lemma IsInBoundsCentered_vs_drawn_witness :
  (IsInBoundsCentered main_canvas 5 (-300) = true
   /\ IsInBounds main_canvas (Z.quot 800 2 + 5) (Z.quot 600 2 - (-300)) = false)
  /\ (IsInBoundsCentered main_canvas 5 300 = false
      /\ IsInBounds main_canvas (Z.quot 800 2 + 5) (Z.quot 600 2 - 300) = true).
Proof.
  split.
  - apply (proj1 (IsInBoundsCentered_vs_drawn main_canvas 5 (-300)
                    ltac:(reflexivity) ltac:(reflexivity))).
    cbn. lia.
  - apply (proj2 (IsInBoundsCentered_vs_drawn main_canvas 5 300
                    ltac:(reflexivity) ltac:(reflexivity))).
    cbn. lia.
Defined.

(** ** The directions through mirrored pixels *)

Lemma of_int_neg (n : Z) : n <> 0 -> of_int (- n) = (- of_int n)%f32.
Proof.
  intros N. unfold of_int, binary_normalize.
  destruct n as [|p|p]; [contradiction| |]; cbn [Z.opp].
  - apply (binary_round_opp false).
  - change (binary_round prec emax false p 0)
      with (binary_round prec emax (negb true) p 0).
    now rewrite binary_round_opp.
Qed.

Lemma mul_neg_l (a b : float) : (- a * b)%f32 = (- (a * b))%f32.
Proof.
  destruct a as [sa|sa| |sa ma ea], b as [sb|sb| |sb mb eb]; cbn;
    try reflexivity; try (now destruct sa, sb).
  unfold mul, SFmul.
  replace (xorb (negb sa) sb) with (negb (xorb sa sb)) by now destruct sa, sb.
  apply binary_round_aux_opp.
Qed.

(** X6.  Mirrored pixels give mirrored directions: off the axes, negating
    [x] negates the first component of the direction and nothing else, and
    negating [y] negates the second one and nothing else, exactly. *)
Theorem CanvasToViewPort_mirror (this : Canvas) (x y : Z) :
  x <> 0 -> y <> 0 ->
  CanvasToViewPort this (- x) y
  = mkVector3 (- raylib.x (CanvasToViewPort this x y))%f32
              (raylib.y (CanvasToViewPort this x y))
              (raylib.z (CanvasToViewPort this x y))
  /\ CanvasToViewPort this x (- y)
     = mkVector3 (raylib.x (CanvasToViewPort this x y))
                 (- raylib.y (CanvasToViewPort this x y))%f32
                 (raylib.z (CanvasToViewPort this x y)).
Proof.
  intros Nx Ny. unfold CanvasToViewPort. cbn [raylib.x raylib.y raylib.z].
  rewrite (of_int_neg x Nx), (of_int_neg y Ny), !mul_neg_l, !div_neg.
  split; reflexivity.
Qed.

Lemma CanvasToViewPort_mirror_witness :
  CanvasToViewPort main_canvas (- 200) 150
  = mkVector3 (- raylib.x (CanvasToViewPort main_canvas 200 150))%f32
              (raylib.y (CanvasToViewPort main_canvas 200 150))
              (raylib.z (CanvasToViewPort main_canvas 200 150)).
Proof.
  apply (proj1 (CanvasToViewPort_mirror main_canvas 200 150
                  ltac:(discriminate) ltac:(discriminate))).
Defined.

(** ** The names of the colours *)

Section ColorNames.

Import String Ascii.
Local Open Scope string_scope.

Local Infix "+s" := String.append (at level 50, left associativity).

Lemma append_assoc (s1 s2 s3 : string) : (s1 +s s2) +s s3 = s1 +s (s2 +s s3).
Proof. induction s1 as [|c s1 IH]; cbn; [reflexivity | now rewrite IH]. Qed.

(** Two texts that are cut at the first occurrence of [c] are cut at the
    same place. *)
Lemma append_cut (c : ascii) (s1 s2 r1 r2 : string) :
  ~ In c (list_ascii_of_string s1) -> ~ In c (list_ascii_of_string s2) ->
  s1 +s String c r1 = s2 +s String c r2 -> s1 = s2 /\ r1 = r2.
Proof.
  revert s2. induction s1 as [|a s1 IH]; intros [|a' s2] N1 N2 E; cbn in *.
  - injection E as E. now split.
  - injection E as E _. exfalso. apply N2. now left.
  - injection E as E _. exfalso. apply N1. now left.
  - injection E as Ea E. subst a'.
    destruct (IH s2) as [-> ->]; auto.
Qed.

Lemma string_of_uint_digits (d : Decimal.uint) (ch : ascii) :
  In ch (list_ascii_of_string (DecimalString.NilEmpty.string_of_uint d)) ->
  In ch (list_ascii_of_string "0123456789").
Proof.
  induction d; cbn [DecimalString.NilEmpty.string_of_uint list_ascii_of_string];
    intros I; [destruct I | ..]; destruct I as [<-|I]; auto; cbn; tauto.
Qed.

Lemma nilzero_string_of_uint_digits (d : Decimal.uint) (ch : ascii) :
  In ch (list_ascii_of_string (DecimalString.NilZero.string_of_uint d)) ->
  In ch (list_ascii_of_string "0123456789").
Proof.
  destruct d; try apply string_of_uint_digits.
  cbn. intros [<-|[]]. now left.
Qed.

Lemma to_string_chars (n : Z) (ch : ascii) :
  In ch (list_ascii_of_string (to_string n)) ->
  In ch (list_ascii_of_string "-0123456789").
Proof.
  unfold to_string, DecimalString.NilZero.string_of_int.
  destruct (Z.to_int n) as [d|d].
  - intros I. right. exact (nilzero_string_of_uint_digits d ch I).
  - cbn [list_ascii_of_string]. intros [<-|I]; [now left|].
    right. exact (nilzero_string_of_uint_digits d ch I).
Qed.

Lemma to_string_no_comma (n : Z) : ~ In ","%char (list_ascii_of_string (to_string n)).
Proof.
  intros I. apply to_string_chars in I. cbn in I.
  repeat (destruct I as [I|I]; [discriminate I|]). destruct I.
Qed.

Lemma to_string_no_paren (n : Z) : ~ In ")"%char (list_ascii_of_string (to_string n)).
Proof.
  intros I. apply to_string_chars in I. cbn in I.
  repeat (destruct I as [I|I]; [discriminate I|]). destruct I.
Qed.

(** [std::to_string] prints two different numbers differently. *)
Lemma to_string_inj (n m : Z) : to_string n = to_string m -> n = m.
Proof.
  unfold to_string. intros E. apply DecimalZ.to_int_inj.
  assert (forall k, Z.to_int k <> Decimal.Pos Decimal.Nil
                    /\ Z.to_int k <> Decimal.Neg Decimal.Nil) as NN.
  { intros [|p|p]; cbn; split; try discriminate; intros [= H];
      now apply DecimalPos.Unsigned.to_uint_nonnil in H. }
  pose proof (DecimalString.NilZero.isi _ (proj1 (NN n)) (proj2 (NN n))) as In.
  pose proof (DecimalString.NilZero.isi _ (proj1 (NN m)) (proj2 (NN m))) as Im.
  rewrite E in In. congruence.
Qed.

(** The text of a colour that has no name. *)
Lemma rgba_text_inj (r1 g1 b1 a1 r2 g2 b2 a2 : Z) :
  "RGBA(" +s to_string r1 +s "," +s to_string g1 +s "," +s to_string b1
          +s "," +s to_string a1 +s ")"
  = "RGBA(" +s to_string r2 +s "," +s to_string g2 +s "," +s to_string b2
            +s "," +s to_string a2 +s ")" ->
  r1 = r2 /\ g1 = g2 /\ b1 = b2 /\ a1 = a2.
Proof.
  rewrite !append_assoc. cbn [append]. intros [= E].
  apply append_cut in E as [Er E]; try apply to_string_no_comma.
  apply append_cut in E as [Eg E]; try apply to_string_no_comma.
  apply append_cut in E as [Eb E]; try apply to_string_no_comma.
  apply append_cut in E as [Ea _]; try apply to_string_no_paren.
  auto using to_string_inj.
Qed.

(** What [ColorToString] returns: one of six names, which fixes red, green
    and blue, or the text with the four numbers. *)
Lemma ColorToString_cases (c : Color) :
  let named (x y z : Z) (s : string) :=
    (r c = x /\ g c = y /\ b c = z) /\ ColorToString c = s in
  named 255 0 0 "RED" \/ named 0 255 0 "GREEN" \/ named 0 0 255 "BLUE"
  \/ named 255 255 255 "WHITE" \/ named 0 0 0 "BLACK" \/ named 255 255 0 "YELLOW"
  \/ ColorToString c
     = "RGBA(" +s to_string (r c) +s "," +s to_string (g c) +s ","
               +s to_string (b c) +s "," +s to_string (a c) +s ")".
Proof.
  intros named. unfold named, ColorToString.
  repeat match goal with
         | |- context [if ?t then _ else _] =>
             let E := fresh "E" in
             destruct t eqn:E;
             [apply andb_prop in E as [E ?]; apply andb_prop in E as [? ?];
              rewrite !Z.eqb_eq in *; tauto|]
         end.
  tauto.
Qed.

End ColorNames.

(** X7.  [ColorToString] tells colours apart: two colours with one text have
    the same red, green and blue, and the same alpha too unless the text is
    one of the six names, which leave alpha out. *)
Theorem ColorToString_distinguishes (c1 c2 : Color) :
  ColorToString c1 = ColorToString c2 ->
  r c1 = r c2 /\ g c1 = g c2 /\ b c1 = b c2
  /\ (a c1 = a c2
      \/ In (ColorToString c1)
            ["RED"; "GREEN"; "BLUE"; "WHITE"; "BLACK"; "YELLOW"]%string).
Proof.
  intros E.
  pose proof (ColorToString_cases c1) as C1.
  pose proof (ColorToString_cases c2) as C2. cbv zeta in C1, C2.
  destruct C1 as [[(?&?&?) T1]|[[(?&?&?) T1]|[[(?&?&?) T1]|[[(?&?&?) T1]
                 |[[(?&?&?) T1]|[[(?&?&?) T1]|T1]]]]]];
    destruct C2 as [[(?&?&?) T2]|[[(?&?&?) T2]|[[(?&?&?) T2]|[[(?&?&?) T2]
                   |[[(?&?&?) T2]|[[(?&?&?) T2]|T2]]]]]];
    rewrite T1, T2 in E; try discriminate E;
    try (rewrite T1; cbn [In]; repeat split; try congruence; tauto).
  apply rgba_text_inj in E. tauto.
Qed.

(** Two reds that differ in alpha only have one text, ["RED"]. *)
Lemma ColorToString_distinguishes_witness :
  r (mkColor 255 0 0 255) = r (mkColor 255 0 0 7)
  /\ g (mkColor 255 0 0 255) = g (mkColor 255 0 0 7)
  /\ b (mkColor 255 0 0 255) = b (mkColor 255 0 0 7)
  /\ (a (mkColor 255 0 0 255) = a (mkColor 255 0 0 7)
      \/ In (ColorToString (mkColor 255 0 0 255))
            ["RED"; "GREEN"; "BLUE"; "WHITE"; "BLACK"; "YELLOW"]%string).
Proof.
  apply (ColorToString_distinguishes (mkColor 255 0 0 255) (mkColor 255 0 0 7)).
  reflexivity.
Defined.

(** ** Rays without a direction *)

Lemma zn_mul_r (a b : float) :
  is_zero b || is_nan b = true -> is_zero (a * b)%f32 || is_nan (a * b)%f32 = true.
Proof. destruct a as [?|?| |? ? ?], b as [?|?| |? ? ?]; try discriminate; reflexivity. Qed.

Lemma zn_mul_l (a b : float) :
  is_zero a || is_nan a = true -> is_zero (a * b)%f32 || is_nan (a * b)%f32 = true.
Proof. destruct a as [?|?| |? ? ?], b as [?|?| |? ? ?]; try discriminate; reflexivity. Qed.

Lemma zn_add (a b : float) :
  is_zero a || is_nan a = true -> is_zero b || is_nan b = true ->
  is_zero (a + b)%f32 || is_nan (a + b)%f32 = true.
Proof. destruct a as [[]|?| |? ? ?], b as [[]|?| |? ? ?]; try discriminate; reflexivity. Qed.

Lemma zn_sub (a b : float) :
  is_zero a || is_nan a = true -> is_zero b || is_nan b = true ->
  is_zero (a - b)%f32 || is_nan (a - b)%f32 = true.
Proof. destruct a as [[]|?| |? ? ?], b as [[]|?| |? ? ?]; try discriminate; reflexivity. Qed.

Lemma zn_neg (a : float) :
  is_zero a || is_nan a = true -> is_zero (- a)%f32 || is_nan (- a)%f32 = true.
Proof. destruct a; try discriminate; reflexivity. Qed.

Lemma zn_sqrt (a : float) :
  is_zero a || is_nan a = true -> is_zero (sqrt a) || is_nan (sqrt a) = true.
Proof. destruct a; try discriminate; reflexivity. Qed.

Lemma zn_div_zero (n d : float) :
  is_zero n || is_nan n = true -> is_zero d = true -> is_nan (n / d)%f32 = true.
Proof. destruct n, d; try discriminate; reflexivity. Qed.

Lemma zn_not_negative (a : float) :
  is_zero a || is_nan a = true -> (a <? zero)%f32 = false.
Proof. destruct a; try discriminate; reflexivity. Qed.

Lemma is_zero_zn (a : float) : is_zero a = true -> is_zero a || is_nan a = true.
Proof. intros ->. reflexivity. Qed.

Lemma mul_zero_zero (a b : float) :
  is_zero a = true -> is_zero b = true -> is_zero (a * b)%f32 = true.
Proof. destruct a, b; try discriminate; reflexivity. Qed.

Lemma in_range_nan (t_min t_max t : float) :
  is_nan t = true -> in_range t_min t_max t = false.
Proof.
  destruct t; try discriminate. intros _. unfold in_range.
  destruct t_min as [| | |[]]; reflexivity.
Qed.

(** Both roots of a ray whose direction is zero are NaN. *)
Lemma zero_direction_roots (origin direction : Vector3) (sphere : Sphere) :
  is_zero (raylib.x direction) = true ->
  is_zero (raylib.y direction) = true ->
  is_zero (raylib.z direction) = true ->
  is_nan (fst (IntersectRaySphere origin direction sphere)) = true
  /\ is_nan (snd (IntersectRaySphere origin direction sphere)) = true.
Proof.
  intros Zx Zy Zz. unfold IntersectRaySphere.
  set (oc := Vector3Subtract origin (center sphere)).
  set (k3 := (Vector3DotProduct oc oc - radius sphere * radius sphere)%f32).
  assert (is_zero (Vector3DotProduct direction direction) = true) as K1
      by (unfold Vector3DotProduct; auto using add_zero, mul_zero_zero).
  assert (is_zero (of_int 2 * Vector3DotProduct oc direction)%f32
          || is_nan (of_int 2 * Vector3DotProduct oc direction)%f32 = true) as K2
      by (unfold Vector3DotProduct; auto 8 using zn_add, zn_mul_r, is_zero_zn).
  set (k1 := Vector3DotProduct direction direction) in *.
  set (k2 := (of_int 2 * Vector3DotProduct oc direction)%f32) in *.
  assert (is_zero (k2 * k2 - of_int 4 * k1 * k3)%f32
          || is_nan (k2 * k2 - of_int 4 * k1 * k3)%f32 = true) as D
      by auto 8 using zn_sub, zn_mul_l, zn_mul_r, is_zero_zn.
  rewrite (zn_not_negative _ D). cbn [fst snd].
  assert (is_zero (of_int 2 * k1)%f32 = true) as Z2.
  { destruct k1; try discriminate; reflexivity. }
  split; apply zn_div_zero; auto using zn_add, zn_sub, zn_neg, zn_sqrt.
Qed.

(** X8.  A ray whose direction is zero hits nothing: whatever the scene, the
    origin and the range, [TraceRay] returns the background. *)
Theorem TraceRay_zero_direction (canvas : Canvas) (this : Raytracer)
        (origin direction : Vector3) (t_min t_max : float) :
  is_zero (raylib.x direction) = true ->
  is_zero (raylib.y direction) = true ->
  is_zero (raylib.z direction) = true ->
  fst (TraceRay canvas this origin direction t_min t_max) = GetBackground canvas.
Proof.
  intros Zx Zy Zz. unfold TraceRay.
  pose proof (closest_nearest origin direction t_min t_max this) as N.
  unfold nearest_of in N.
  destruct (snd (closest this origin direction t_min t_max)) as [s|]; [|reflexivity].
  destruct N as (_ & [R I] & _). exfalso.
  destruct (zero_direction_roots origin direction s Zx Zy Zz) as [N1 N2].
  rewrite in_range_nan in I; [discriminate|].
  destruct R as [-> | ->]; assumption.
Qed.

Lemma TraceRay_zero_direction_witness :
  fst (TraceRay main_canvas Raytracer_new CameraPosition (vec 0 0 0)
                (of_int 1) infinity) = WHITE.
Proof.
  apply (TraceRay_zero_direction main_canvas Raytracer_new CameraPosition (vec 0 0 0));
    reflexivity.
Defined.

(** ** The quadratic behind a hit *)

Lemma sub_nan_r a s : is_nan (a - s)%f32 = false -> is_nan s = false.
Proof. destruct a, s; try reflexivity; discriminate. Qed.

Lemma sqrt_nan f : is_nan (sqrt f) = false -> is_nan f = false.
Proof. destruct f; try reflexivity; discriminate. Qed.

Lemma mul_nan_r a f : is_nan (a * f)%f32 = false -> is_nan f = false.
Proof. destruct a, f; try reflexivity; discriminate. Qed.

Lemma in_range_infinite (t_min t_max : float) (s : bool) :
  in_range t_min t_max (S754_infinity s) = false.
Proof.
  unfold in_range. destruct s.
  - now destruct t_min as [|[]| |[]].
  - replace (S754_infinity false <? t_max)%f32 with false
      by now destruct t_max as [|[]| |[]].
    apply andb_false_r.
Qed.

Lemma div_by_zero (n d : float) :
  is_zero d = true ->
  is_nan (n / d)%f32 = true \/ exists s, (n / d)%f32 = S754_infinity s.
Proof.
  destruct n as [?|?| |? ? ?], d as [?|?| |? ? ?]; try discriminate; intros _; cbn; eauto.
Qed.

(** X9.  A root in range comes from a genuine quadratic: whenever a root
    [IntersectRaySphere] returns lies strictly inside [(t_min, t_max)], the
    coefficient [a = direction . direction] it computed is positive and the
    discriminant it computed is not negative, and neither is NaN. *)
Theorem hit_real_roots (origin direction : Vector3) (t_min t_max : float)
        (s : Sphere) (t : float) :
  hit origin direction t_min t_max s t ->
  (zero <? quad_k1 direction)%f32 = true
  /\ (zero <=? discriminant_of (quad_k1 direction) (quad_k2 origin direction s)
                               (quad_k3 origin s))%f32 = true.
Proof.
  intros [R I]. rewrite IntersectRaySphere_discriminant in R. cbv zeta in R.
  set (k1 := quad_k1 direction) in *.
  set (k2 := quad_k2 origin direction s) in *.
  set (D := discriminant_of k1 k2 (quad_k3 origin s)) in *.
  destruct (D <? zero)%f32 eqn:Dn; cbn [fst snd] in R.
  { exfalso. assert (t = infinity) as -> by now destruct R.
    unfold infinity in I. rewrite in_range_infinite in I. discriminate. }
  assert (is_nan t = false) as Nt.
  { unfold in_range in I. apply andb_prop in I as [I _].
    now apply ltb_not_nan in I. }
  assert (exists n, t = (n / (of_int 2 * k1))%f32 /\ is_nan (sqrt D) = false)
    as (n & Et & Ns).
  { destruct R as [E|E]; eexists; (split; [exact E|]); rewrite E in Nt;
      apply div_nan_l in Nt; [now apply add_nan_r in Nt | now apply sub_nan_r in Nt]. }
  assert (is_nan k1 = false) as Nk.
  { rewrite Et in Nt. now apply div_nan_r, mul_nan_r in Nt. }
  split.
  - pose proof (dot_self_nonneg direction Nk) as P. fold (quad_k1 direction) in P.
    fold k1 in P.
    destruct (is_zero k1) eqn:Z.
    + exfalso.
      assert (is_zero (of_int 2 * k1)%f32 = true) as Z2
          by (destruct k1; try discriminate; reflexivity).
      destruct (div_by_zero n _ Z2) as [N|[sg E]]; rewrite <- Et in *.
      * rewrite N in Nt. discriminate.
      * rewrite E, in_range_infinite in I. discriminate.
    + destruct k1 as [?|[]| |[]]; cbn in P, Z |- *; try tauto; discriminate.
  - apply sqrt_nan in Ns. apply leb_rank; [reflexivity | exact Ns |].
    intros L. apply (ltb_rank D zero Ns eq_refl) in L. rewrite L in Dn. discriminate.
Qed.

(** Straight ahead of the camera of [main] the red sphere has the root 3. *)
Lemma hit_real_roots_witness :
  (zero <? quad_k1 (vec 0 0 1))%f32 = true
  /\ (zero <=? discriminant_of (quad_k1 (vec 0 0 1))
                 (quad_k2 CameraPosition (vec 0 0 1)
                          (mkSphere (vec 0 (-1) 3) (of_int 1) (mkColor 255 0 0 255)))
                 (quad_k3 CameraPosition
                          (mkSphere (vec 0 (-1) 3) (of_int 1) (mkColor 255 0 0 255))))%f32
     = true.
Proof.
  apply (hit_real_roots CameraPosition (vec 0 0 1) (of_int 1) infinity
           (mkSphere (vec 0 (-1) 3) (of_int 1) (mkColor 255 0 0 255)) (of_int 3)).
  split; [left|]; reflexivity.
Defined.

(** ** The scene and the range of [TraceRay] *)

Lemma Color_eq_dec (c1 c2 : Color) : {c1 = c2} + {c1 <> c2}.
Proof. decide equality; apply Z.eq_dec. Qed.

Lemma leb_ltb_trans (x y z : float) :
  (x <=? y)%f32 = true -> (y <? z)%f32 = true -> (x <? z)%f32 = true.
Proof.
  intros H1 H2.
  destruct (leb_not_nan _ _ H1) as [Hx Hy], (ltb_not_nan _ _ H2) as [_ Hz].
  apply leb_rank in H1; auto. apply ltb_rank in H2; auto. apply ltb_rank; auto.
  destruct (lex_lt_cotrans _ (rank x) _ H2); [contradiction | assumption].
Qed.

Lemma ltb_leb_trans (x y z : float) :
  (x <? y)%f32 = true -> (y <=? z)%f32 = true -> (x <? z)%f32 = true.
Proof.
  intros H1 H2.
  destruct (ltb_not_nan _ _ H1) as [Hx Hy], (leb_not_nan _ _ H2) as [_ Hz].
  apply ltb_rank in H1; auto. apply leb_rank in H2; auto. apply ltb_rank; auto.
  destruct (lex_lt_cotrans _ (rank z) _ H1); [assumption | contradiction].
Qed.

Section TraceRayScene.

Variables (origin direction : Vector3) (t_min t_max : float).

Local Abbreviation Hit := (hit origin direction t_min t_max).
Local Abbreviation step := (scan origin direction t_min t_max).

(** A sphere whose discriminant is negative has no root in any range. *)
Lemma negative_discriminant_no_hit (s : Sphere) :
  (discriminant_of (quad_k1 direction) (quad_k2 origin direction s)
                   (quad_k3 origin s) <? zero)%f32 = true ->
  hits origin direction t_min t_max s = false.
Proof.
  intros D. unfold hits. rewrite IntersectRaySphere_discriminant. cbv zeta.
  rewrite D. cbn [fst snd]. unfold in_range.
  replace (infinity <? t_max)%f32 with false by now destruct t_max as [|[]| |[]].
  now rewrite andb_false_r.
Qed.

Lemma scan_first_nearest (l : list Sphere) st s :
  nearest_of origin direction t_min t_max l st ->
  first_nearest_of origin direction t_min t_max l st ->
  first_nearest_of origin direction t_min t_max (l ++ [s]) (step st s).
Proof.
  intros Inv Fst.
  destruct (scan_cases origin direction t_min t_max st s)
    as [[E Hs] | (t & E & Ht & Hlt & Hs)]; rewrite E.
  - destruct st as [ct [s0|]];
      unfold nearest_of, first_nearest_of in *; cbn [fst snd] in *.
    + destruct Fst as (l1 & l2 & -> & H0 & M0 & B0).
      exists l1, (l2 ++ [s]). split; [now rewrite <- app_assoc|].
      split; [exact H0|]. split; [|exact B0].
      intros s' t' I' H'. apply in_app_or in I' as [I'|[<-|[]]]; eauto.
    + destruct Inv as [-> _].
      intros s' t' I' H'. apply in_app_or in I' as [I'|[<-|[]]].
      * eapply Fst; eauto.
      * pose proof (hit_lt_infinity _ _ _ _ _ _ H') as L. rewrite (Hs _ H') in L.
        discriminate.
  - unfold nearest_of, first_nearest_of in *; cbn [fst snd] in *.
    assert (forall s' t', In s' l -> Hit s' t' -> (t <? t')%f32 = true) as Before.
    { intros s' t' I' H'. destruct (snd st) as [s0|].
      - destruct Inv as (_ & _ & M0).
        destruct (ltb_cotrans _ t' _ Hlt (hit_not_nan _ _ _ _ _ _ H')) as [L|L];
          [exact L|]. rewrite (M0 _ _ I' H') in L. discriminate.
      - exfalso. eapply Fst; eauto. }
    exists l, []. split; [reflexivity|]. split; [exact Ht|]. split; [|exact Before].
    intros s' t' I' H'. apply in_app_or in I' as [I'|[<-|[]]]; [|now apply Hs].
    apply ltb_asym; eauto.
Qed.

Lemma fold_scan_first_nearest (l l0 : list Sphere) st :
  nearest_of origin direction t_min t_max l0 st ->
  first_nearest_of origin direction t_min t_max l0 st ->
  first_nearest_of origin direction t_min t_max (l0 ++ l) (fold_left step l st).
Proof.
  revert l0 st. induction l as [|s l IH]; intros l0 st Inv Fst; cbn [fold_left].
  - now rewrite app_nil_r.
  - replace (l0 ++ s :: l) with ((l0 ++ [s]) ++ l) by now rewrite <- app_assoc.
    apply IH; [now apply scan_nearest | now apply scan_first_nearest].
Qed.

Lemma closest_first_nearest (this : Raytracer) :
  first_nearest_of origin direction t_min t_max (spheres this)
                   (closest this origin direction t_min t_max).
Proof.
  unfold closest. apply (fold_scan_first_nearest (spheres this) []).
  - split; [reflexivity|]. intros s t [].
  - intros s t [].
Qed.

End TraceRayScene.

(** X10.  A sphere whose discriminant is negative is hit in no range, and
    taking it out of the scene changes no colour [TraceRay] returns. *)
Theorem TraceRay_negative_discriminant_sphere
        (canvas : Canvas) (l1 l2 : list Sphere) (s : Sphere)
        (origin direction : Vector3) (t_min t_max : float) :
  (discriminant_of (quad_k1 direction) (quad_k2 origin direction s)
                   (quad_k3 origin s) <? zero)%f32 = true ->
  (forall t, ~ hit origin direction t_min t_max s t)
  /\ fst (TraceRay canvas (mkRaytracer (l1 ++ s :: l2)) origin direction t_min t_max)
     = fst (TraceRay canvas (mkRaytracer (l1 ++ l2)) origin direction t_min t_max).
Proof.
  intros D.
  pose proof (negative_discriminant_no_hit origin direction t_min t_max s D) as N.
  split.
  - intros t Ht.
    assert (hits origin direction t_min t_max s = true) as E
        by (apply hits_hit; eauto).
    rewrite N in E. discriminate.
  - unfold TraceRay, closest. cbn [spheres].
    rewrite <- (fold_scan_filter _ _ _ _ (l1 ++ s :: l2)).
    rewrite <- (fold_scan_filter _ _ _ _ (l1 ++ l2)).
    rewrite !filter_app. cbn [filter]. rewrite N.
    destruct (snd (fold_left _ _ _)); reflexivity.
Qed.

Lemma TraceRay_negative_discriminant_sphere_witness :
  fst (TraceRay main_canvas
         (mkRaytracer ([] ++ mkSphere (vec 0 (-1) 3) (of_int 1) (mkColor 255 0 0 255)
                          :: [mkSphere (vec 2 0 4) (of_int 1) (mkColor 0 0 255 255)]))
         CameraPosition (vec 1 0 0) (of_int 1) infinity)
  = fst (TraceRay main_canvas
           (mkRaytracer ([] ++ [mkSphere (vec 2 0 4) (of_int 1) (mkColor 0 0 255 255)]))
           CameraPosition (vec 1 0 0) (of_int 1) infinity).
Proof.
  apply (proj2 (TraceRay_negative_discriminant_sphere main_canvas []
                  [mkSphere (vec 2 0 4) (of_int 1) (mkColor 0 0 255 255)]
                  (mkSphere (vec 0 (-1) 3) (of_int 1) (mkColor 255 0 0 255))
                  CameraPosition (vec 1 0 0) (of_int 1) infinity ltac:(reflexivity))).
Defined.

(** X11.  The order of the scene matters for ties only: when a sphere has a
    root in range that lies strictly below every root in range of the
    spheres of another colour, [TraceRay] returns its colour in whatever
    order the spheres are stored. *)
Theorem TraceRay_any_order
        (canvas : Canvas) (l l' : list Sphere) (s : Sphere) (t : float)
        (origin direction : Vector3) (t_min t_max : float) :
  Permutation l l' ->
  In s l ->
  hit origin direction t_min t_max s t ->
  (forall s' t', In s' l -> color s' <> color s ->
                 hit origin direction t_min t_max s' t' -> (t <? t')%f32 = true) ->
  fst (TraceRay canvas (mkRaytracer l') origin direction t_min t_max) = color s.
Proof.
  intros P I Ht Strict. unfold TraceRay.
  pose proof (closest_nearest origin direction t_min t_max (mkRaytracer l')) as N.
  unfold nearest_of in N. cbn [spheres] in N.
  assert (In s l') as I' by (eapply Permutation_in; eauto).
  destruct (snd (closest (mkRaytracer l') origin direction t_min t_max)) as [s0|];
    cbn [fst].
  - destruct N as (I0 & H0 & M0).
    destruct (Color_eq_dec (color s0) (color s)) as [E|E]; [exact E|].
    exfalso. apply (Permutation_in _ (Permutation_sym P)) in I0.
    pose proof (Strict _ _ I0 E H0) as L.
    rewrite (M0 _ _ I' Ht) in L. discriminate.
  - destruct N as (_ & N). exfalso. eapply N; eauto.
Qed.

(** A red sphere with the roots 4 and 2 in front of a black one with the
    roots 6 and 4, in both orders. *)
Lemma TraceRay_any_order_witness :
  fst (TraceRay main_canvas
         (mkRaytracer [mkSphere (vec 0 0 3) (of_int 1) (mkColor 255 0 0 255);
                       mkSphere (vec 0 0 5) (of_int 1) BLACK])
         CameraPosition (vec 0 0 1) (of_int 1) infinity)
  = mkColor 255 0 0 255.
Proof.
  apply (TraceRay_any_order main_canvas
           [mkSphere (vec 0 0 5) (of_int 1) BLACK;
            mkSphere (vec 0 0 3) (of_int 1) (mkColor 255 0 0 255)]
           [mkSphere (vec 0 0 3) (of_int 1) (mkColor 255 0 0 255);
            mkSphere (vec 0 0 5) (of_int 1) BLACK]
           (mkSphere (vec 0 0 3) (of_int 1) (mkColor 255 0 0 255))
           (of_int 2)).
  - apply perm_swap.
  - right. left. reflexivity.
  - split; [right|]; reflexivity.
  - intros s' t' [<-|[<-|[]]] Hc [[->| ->] _]; try reflexivity;
      exfalso; apply Hc; reflexivity.
Defined.

(** X12.  Narrowing the range around the nearest hit changes nothing: when
    [t_min <= t_min'], [t_max' <= t_max] and the root [TraceRay] stops at in
    [(t_min, t_max)] also lies in [(t_min', t_max')], or nothing is hit,
    [TraceRay] returns the same colour in both ranges. *)
Theorem TraceRay_narrower_range
        (canvas : Canvas) (this : Raytracer) (origin direction : Vector3)
        (t_min t_max t_min' t_max' : float) :
  (t_min <=? t_min')%f32 = true ->
  (t_max' <=? t_max)%f32 = true ->
  (snd (closest this origin direction t_min t_max) = None
   \/ in_range t_min' t_max' (fst (closest this origin direction t_min t_max)) = true) ->
  fst (TraceRay canvas this origin direction t_min' t_max')
  = fst (TraceRay canvas this origin direction t_min t_max).
Proof.
  intros Lo Hi C.
  assert (forall s t, hit origin direction t_min' t_max' s t ->
                      hit origin direction t_min t_max s t) as Sub.
  { intros s t [R I]. split; [exact R|]. unfold in_range in *.
    apply andb_prop in I as [I1 I2].
    rewrite (leb_ltb_trans _ _ _ Lo I1), (ltb_leb_trans _ _ _ I2 Hi). reflexivity. }
  pose proof (closest_first_nearest origin direction t_min t_max this) as F.
  pose proof (closest_nearest origin direction t_min' t_max' this) as N'.
  unfold TraceRay, first_nearest_of, nearest_of in *.
  destruct (snd (closest this origin direction t_min t_max)) as [s|].
  - destruct C as [C|C]; [discriminate|].
    destruct F as (l1 & l2 & E & [R _] & M & B).
    unfold closest. rewrite E.
    rewrite (fold_scan_first origin direction t_min' t_max' l1 l2 s
               (fst (closest this origin direction t_min t_max))).
    + reflexivity.
    + split; assumption.
    + intros s' t' I' H'. rewrite <- E in I'. eauto.
    + intros s' t' I' H'. eauto.
  - destruct (snd (closest this origin direction t_min' t_max')) as [s'|];
      [|reflexivity].
    destruct N' as (I' & H' & _). exfalso. eapply F; eauto.
Qed.

(** Straight ahead the camera of [main] sees the red sphere at [t = 3], in
    the range from 2 to 4 as in the range from 1 to infinity. *)
Lemma TraceRay_narrower_range_witness :
  fst (TraceRay main_canvas Raytracer_new CameraPosition (vec 0 0 1)
                (of_int 2) (of_int 4))
  = fst (TraceRay main_canvas Raytracer_new CameraPosition (vec 0 0 1)
                  (of_int 1) infinity).
Proof.
  apply (TraceRay_narrower_range main_canvas Raytracer_new CameraPosition
           (vec 0 0 1) (of_int 1) infinity (of_int 2) (of_int 4)).
  - reflexivity.
  - reflexivity.
  - right. vm_compute. reflexivity.
Defined.

Lemma call_background (this : Canvas) (c : CanvasCall) :
  (forall col, c <> CallClear col) ->
  GetBackground (call this c) = GetBackground this.
Proof.
  intros N. destruct c as [Vx Vy d|x y col|x y col|col]; cbn [call];
    unfold PutPixelCentered, PutPixel; try destruct (IsInBounds _ _ _);
    try reflexivity.
  now destruct (N col).
Qed.

(** X13.  [TraceRay] reads nothing of the canvas but its background: after
    any run of [SetViewPort], [PutPixel] and [PutPixelCentered] on the
    canvas it returns what it returned before. *)
Theorem TraceRay_ignores_drawing
        (canvas : Canvas) (l : list CanvasCall) (this : Raytracer)
        (origin direction : Vector3) (t_min t_max : float) :
  (forall col, ~ In (CallClear col) l) ->
  TraceRay (run_calls canvas l) this origin direction t_min t_max
  = TraceRay canvas this origin direction t_min t_max.
Proof.
  intros N.
  assert (GetBackground (run_calls canvas l) = GetBackground canvas) as E.
  { unfold run_calls. revert canvas.
    induction l as [|c l IH]; intros canvas; cbn [fold_left]; [reflexivity|].
    rewrite IH by (intros col I; apply (N col); now right).
    apply call_background. intros col ->. apply (N col). now left. }
  unfold TraceRay. now rewrite E.
Qed.

Lemma TraceRay_ignores_drawing_witness :
  TraceRay (run_calls main_canvas [CallPutPixel 400 300 BLACK;
                                   CallSetViewPort zero zero zero])
           Raytracer_new CameraPosition (vec 1 0 0) (of_int 1) infinity
  = TraceRay main_canvas Raytracer_new CameraPosition (vec 1 0 0)
             (of_int 1) infinity.
Proof.
  apply (TraceRay_ignores_drawing main_canvas
           [CallPutPixel 400 300 BLACK; CallSetViewPort zero zero zero]).
  intros col [I|[I|[]]]; discriminate I.
Defined.

(** ** The rendering loop of [main] *)

Lemma with_calls_self (this : Canvas) :
  with_calls this (tex_calls (renderTexture this)) = this.
Proof. destruct this as [? ? ? ? ? ? []]. reflexivity. Qed.

Lemma render_pixel_calls (c : Canvas) (rt : Raytracer) (k : list DrawCall) (x y : Z) :
  render_pixel x y (with_calls c k, rt)
  = (with_calls c (render_calls c rt [(x, y)] ++ k), rt).
Proof.
  unfold render_pixel, render_calls, pixel_color, screen_of.
  change (CanvasToViewPort (with_calls c k) x y) with (CanvasToViewPort c x y).
  unfold TraceRay, PutPixelCentered, PutPixel, IsInBounds, GetBackground.
  cbn [filter map fst snd with_calls CanvasWidth CanvasHeight background renderTexture].
  destruct (_ && _ && _ && _); cbn [map fst snd app];
    destruct (snd (closest rt _ _ _ _)); reflexivity.
Qed.

Lemma render_calls_app c rt l1 l2 :
  render_calls c rt (l1 ++ l2) = render_calls c rt l1 ++ render_calls c rt l2.
Proof. unfold render_calls. now rewrite filter_app, map_app. Qed.

Lemma render_pixels_calls (c : Canvas) (rt : Raytracer) (l : list (Z * Z))
      (k : list DrawCall) :
  fold_left (fun st p => render_pixel (fst p) (snd p) st) l (with_calls c k, rt)
  = (with_calls c (rev (render_calls c rt l) ++ k), rt).
Proof.
  revert k. induction l as [|[x y] l IH]; intros k; cbn [fold_left]; [reflexivity|].
  cbn [fst snd]. rewrite render_pixel_calls, IH.
  change ((x, y) :: l) with ([(x, y)] ++ l).
  rewrite (render_calls_app c rt [(x, y)] l), rev_app_distr, <- app_assoc.
  f_equal. f_equal. f_equal.
  unfold render_calls. cbn [filter]. now destruct (IsInBounds _ _ _).
Qed.

Lemma render_column_calls (c : Canvas) (rt : Raytracer) (k : list DrawCall) (x : Z) :
  render_column x (with_calls c k, rt)
  = (with_calls c
       (rev (render_calls c rt
               (map (pair x) (for_range (Z.quot (- CanvasHeight c) 2)
                                        (Z.quot (CanvasHeight c) 2)))) ++ k),
     rt).
Proof.
  unfold render_column, GetHeight. cbn [fst with_calls CanvasHeight].
  rewrite <- render_pixels_calls.
  generalize (with_calls c k, rt).
  induction (for_range _ _) as [|y l IH]; intros st; cbn [map fold_left]; auto.
Qed.

Lemma render_columns_calls (c : Canvas) (rt : Raytracer) (xs : list Z)
      (k : list DrawCall) :
  fold_left (fun st x => render_column x st) xs (with_calls c k, rt)
  = (with_calls c
       (rev (render_calls c rt
               (list_prod xs (for_range (Z.quot (- CanvasHeight c) 2)
                                        (Z.quot (CanvasHeight c) 2))))
        ++ k),
     rt).
Proof.
  revert k. induction xs as [|x l IH]; intros k;
    cbn [fold_left list_prod]; [reflexivity|].
  rewrite render_column_calls, IH, render_calls_app, rev_app_distr, <- app_assoc.
  reflexivity.
Qed.

(** The rendering loop issues, in the order of the loop, one [DrawPixel] for
    each centred pixel that falls on the canvas. *)
Lemma render_is_calls (c : Canvas) (rt : Raytracer) :
  render (c, rt)
  = (with_calls c
       (rev (render_calls c rt
               (list_prod (for_range (Z.quot (- CanvasWidth c) 2)
                                     (Z.quot (CanvasWidth c) 2))
                          (for_range (Z.quot (- CanvasHeight c) 2)
                                     (Z.quot (CanvasHeight c) 2))))
        ++ tex_calls (renderTexture c)),
     rt).
Proof.
  unfold render, GetWidth. cbn [fst].
  rewrite <- render_columns_calls. now rewrite with_calls_self.
Qed.

Lemma in_for_range (lo hi v : Z) : In v (for_range lo hi) <-> lo <= v <= hi.
Proof.
  unfold for_range. rewrite in_map_iff. split.
  - intros (i & <- & I). apply in_seq in I. lia.
  - intros I. exists (Z.to_nat (v - lo)). split; [lia|]. apply in_seq. lia.
Qed.

Lemma NoDup_for_range (lo hi : Z) : NoDup (for_range lo hi).
Proof.
  unfold for_range. generalize (Z.to_nat (hi - lo + 1)) as n. intros n.
  generalize 0%nat as i. induction n as [|n IH]; intros i; cbn [seq map].
  - constructor.
  - constructor; [|apply IH]. rewrite in_map_iff. intros (j & E & I).
    apply in_seq in I. lia.
Qed.

Lemma length_for_range (lo hi : Z) :
  length (for_range lo hi) = Z.to_nat (hi - lo + 1).
Proof. unfold for_range. now rewrite length_map, length_seq. Qed.

(** How many values of a loop pass a test that holds between [lo'] and
    [hi']. *)
Lemma length_filter_for_range (lo hi lo' hi' : Z) (f : Z -> bool) :
  lo <= lo' -> hi' <= hi ->
  (forall v, f v = true <-> lo' <= v <= hi') ->
  length (filter f (for_range lo hi)) = Z.to_nat (hi' - lo' + 1).
Proof.
  intros Lo Hi F. rewrite <- length_for_range. apply Permutation_length.
  apply NoDup_Permutation.
  - apply NoDup_filter, NoDup_for_range.
  - apply NoDup_for_range.
  - intros v. rewrite filter_In, !in_for_range, F. lia.
Qed.

Lemma length_filter_list_prod (A B : Type) (f : A -> bool) (g : B -> bool)
      (xs : list A) (ys : list B) :
  length (filter (fun p => f (fst p) && g (snd p)) (list_prod xs ys))
  = (length (filter f xs) * length (filter g ys))%nat.
Proof.
  induction xs as [|x xs IH]; cbn [list_prod filter]; [reflexivity|].
  rewrite filter_app, length_app, IH.
  assert (length (filter (fun p => f (fst p) && g (snd p))
                         (map (fun y => (x, y)) ys))
          = if f x then length (filter g ys) else 0%nat) as E.
  { clear IH. induction ys as [|y ys IHy]; cbn [map filter fst snd].
    - now destruct (f x).
    - destruct (f x), (g y); cbn [andb length]; rewrite ?IHy; reflexivity. }
  rewrite E. destruct (f x); cbn [length]; lia.
Qed.

Lemma pixel_writes_app (l k : list DrawCall) :
  pixel_writes (l ++ k) = (pixel_writes l + pixel_writes k)%nat.
Proof.
  induction l as [|[c|qx qy c] l IH]; cbn [app pixel_writes]; auto. now rewrite IH.
Qed.

Lemma pixel_writes_rev (l : list DrawCall) :
  pixel_writes (rev l) = pixel_writes l.
Proof.
  induction l as [|[c|qx qy c] l IH]; cbn [rev]; auto;
    rewrite pixel_writes_app, IH; cbn [pixel_writes]; lia.
Qed.

Lemma pixel_writes_render_calls c rt l :
  pixel_writes (render_calls c rt l)
  = length (filter (fun p => IsInBounds c (fst (screen_of c p))
                                        (snd (screen_of c p))) l).
Proof.
  unfold render_calls. induction (filter _ l) as [|p l' IH]; cbn [map pixel_writes length]; auto.
Qed.

Lemma quot2_bounds (n : Z) :
  0 < n -> 0 <= 2 * Z.quot n 2 <= n /\ n <= 2 * Z.quot n 2 + 1
           /\ Z.quot (- n) 2 = - Z.quot n 2.
Proof.
  intros N. rewrite Z.quot_opp_l by lia. rewrite Z.quot_div_nonneg by lia.
  pose proof (Z.div_mod n 2). pose proof (Z.mod_pos_bound n 2). lia.
Qed.

(** X14.  The loop of [main] issues exactly [W * H] pixel writes on a canvas
    of [W] by [H] pixels, and it changes neither the raytracer nor anything
    of the canvas but the texture. *)
Theorem render_writes_every_pixel_once (canvas : Canvas) (raytracer : Raytracer) :
  0 < CanvasWidth canvas -> 0 < CanvasHeight canvas ->
  let after := render (canvas, raytracer) in
  snd after = raytracer
  /\ GetWidth (fst after) = GetWidth canvas
  /\ GetHeight (fst after) = GetHeight canvas
  /\ (ViewWidth (fst after), ViewHeight (fst after), Distance (fst after))
     = (ViewWidth canvas, ViewHeight canvas, Distance canvas)
  /\ GetBackground (fst after) = GetBackground canvas
  /\ pixel_writes (tex_calls (renderTexture (fst after)))
     = (Z.to_nat (CanvasWidth canvas) * Z.to_nat (CanvasHeight canvas)
        + pixel_writes (tex_calls (renderTexture canvas)))%nat.
Proof.
  intros HW HH after. unfold after. rewrite render_is_calls. cbn [fst snd].
  do 5 (split; [reflexivity|]).
  cbn [with_calls renderTexture tex_calls].
  rewrite pixel_writes_app, pixel_writes_rev, pixel_writes_render_calls.
  f_equal.
  destruct (quot2_bounds _ HW) as (W1 & W2 & ->).
  destruct (quot2_bounds _ HH) as (H1 & H2 & ->).
  rewrite (filter_ext _
             (fun p => ((Z.quot (CanvasWidth canvas) 2 + fst p >=? 0)
                        && (Z.quot (CanvasWidth canvas) 2 + fst p <? CanvasWidth canvas))
                       && ((Z.quot (CanvasHeight canvas) 2 - snd p >=? 0)
                           && (Z.quot (CanvasHeight canvas) 2 - snd p <? CanvasHeight canvas))))
    by (intros p; unfold IsInBounds, screen_of; cbn [fst snd];
        now rewrite <- !andb_assoc).
  rewrite (length_filter_list_prod _ _
             (fun x => (Z.quot (CanvasWidth canvas) 2 + x >=? 0)
                       && (Z.quot (CanvasWidth canvas) 2 + x <? CanvasWidth canvas))
             (fun y => (Z.quot (CanvasHeight canvas) 2 - y >=? 0)
                       && (Z.quot (CanvasHeight canvas) 2 - y <? CanvasHeight canvas))).
  rewrite (length_filter_for_range _ _ (- Z.quot (CanvasWidth canvas) 2)
             (CanvasWidth canvas - Z.quot (CanvasWidth canvas) 2 - 1));
    [|lia|lia|intros v; rewrite andb_true_iff; lia].
  rewrite (length_filter_for_range _ _
             (Z.quot (CanvasHeight canvas) 2 - CanvasHeight canvas + 1)
             (Z.quot (CanvasHeight canvas) 2));
    [|lia|lia|intros v; rewrite andb_true_iff; lia].
  f_equal; f_equal; lia.
Qed.

(** A run of [DrawPixel]s that gives the pixel [(px, py)] one colour only,
    and gives it at least once, leaves that colour there. *)
Lemma texel_of_draws (l k : list DrawCall) (px py : Z) (col : Color) :
  (forall d, In d l -> exists qx qy c,
        d = DrawPixel qx qy c /\ (qx = px -> qy = py -> c = col)) ->
  (exists c, In (DrawPixel px py c) l) ->
  texel_of (l ++ k) px py = Some col.
Proof.
  intros A [c0 I]. induction l as [|d l IH]; [destruct I|].
  destruct (A d (or_introl eq_refl)) as (qx & qy & c & -> & E).
  cbn [app texel_of].
  destruct (Z.eqb_spec qx px) as [Ex|Ex], (Z.eqb_spec qy py) as [Ey|Ey]; cbn [andb].
  - now rewrite E.
  - destruct I as [I|I]; [injection I; intros; lia|].
    apply IH; [intros; apply A; now right | exact I].
  - destruct I as [I|I]; [injection I; intros; lia|].
    apply IH; [intros; apply A; now right | exact I].
  - destruct I as [I|I]; [injection I; intros; lia|].
    apply IH; [intros; apply A; now right | exact I].
Qed.

Lemma in_render_calls c rt l d :
  In d (render_calls c rt l)
  <-> exists p, In p l
                /\ IsInBounds c (fst (screen_of c p)) (snd (screen_of c p)) = true
                /\ d = DrawPixel (fst (screen_of c p)) (snd (screen_of c p))
                                 (pixel_color c rt (fst p) (snd p)).
Proof.
  unfold render_calls. rewrite in_map_iff. split.
  - intros (p & <- & I). apply filter_In in I as [I B]. eauto.
  - intros (p & I & B & ->). exists p. split; [reflexivity|]. now apply filter_In.
Qed.

(** Among the draw calls of the loop the last one, and the only one, at the
    place [(px, py)] of the canvas has the colour computed for the centred
    pixel [(px - W/2, H/2 - py)]. *)
Lemma render_calls_texel_of (canvas : Canvas) (raytracer : Raytracer)
      (k : list DrawCall) (px py : Z) :
  0 < CanvasWidth canvas -> 0 < CanvasHeight canvas ->
  IsInBounds canvas px py = true ->
  texel_of
    (rev (render_calls canvas raytracer
            (list_prod (for_range (Z.quot (- CanvasWidth canvas) 2)
                                  (Z.quot (CanvasWidth canvas) 2))
                       (for_range (Z.quot (- CanvasHeight canvas) 2)
                                  (Z.quot (CanvasHeight canvas) 2))))
     ++ k) px py
  = Some (pixel_color canvas raytracer
                      (px - Z.quot (CanvasWidth canvas) 2)
                      (Z.quot (CanvasHeight canvas) 2 - py)).
Proof.
  intros HW HH B. pose proof B as B'. apply IsInBounds_iff in B'.
  destruct (quot2_bounds _ HW) as (W1 & W2 & EW).
  destruct (quot2_bounds _ HH) as (H1 & H2 & EH).
  apply texel_of_draws.
  - intros d I. apply in_rev, in_render_calls in I as ((x & y) & _ & _ & ->).
    unfold screen_of. cbn [fst snd]. do 3 eexists. split; [reflexivity|].
    intros <- <-. f_equal; lia.
  - eexists. apply in_rev. rewrite rev_involutive. apply in_render_calls.
    exists (px - Z.quot (CanvasWidth canvas) 2, Z.quot (CanvasHeight canvas) 2 - py).
    unfold screen_of. cbn [fst snd].
    replace (Z.quot (CanvasWidth canvas) 2 + (px - Z.quot (CanvasWidth canvas) 2))
      with px by lia.
    replace (Z.quot (CanvasHeight canvas) 2 - (Z.quot (CanvasHeight canvas) 2 - py))
      with py by lia.
    split; [|split; [exact B | reflexivity]].
    apply in_prod; apply in_for_range; lia.
Qed.

Lemma texel_inside (t : RenderTexture2D) (px py : Z) :
  0 <= px < tex_width t -> 0 <= py < tex_height t ->
  texel t px py = texel_of (tex_calls t) px py.
Proof.
  intros Hx Hy. unfold texel.
  replace (_ && _ && _ && _) with true; [reflexivity|].
  symmetry. rewrite !andb_true_iff, !Z.leb_le, !Z.ltb_lt. lia.
Qed.

(** X15.  The image [main] renders: on a canvas of positive size, after the
    loop every pixel [(px, py)] of the canvas holds the colour [TraceRay]
    returns, in the range from 1 to infinity, for the ray from the camera
    through the centred pixel [(px - W/2, H/2 - py)]. *)
Theorem render_image (canvas : Canvas) (raytracer : Raytracer) (px py : Z) :
  0 < CanvasWidth canvas -> 0 < CanvasHeight canvas ->
  tex_width (renderTexture canvas) = CanvasWidth canvas ->
  tex_height (renderTexture canvas) = CanvasHeight canvas ->
  IsInBounds canvas px py = true ->
  texel (renderTexture (fst (render (canvas, raytracer)))) px py
  = Some (fst (TraceRay canvas raytracer CameraPosition
                 (CanvasToViewPort canvas
                    (px - Z.quot (CanvasWidth canvas) 2)
                    (Z.quot (CanvasHeight canvas) 2 - py))
                 (of_int 1) infinity)).
Proof.
  intros HW HH TW TH B. rewrite render_is_calls. cbn [fst].
  pose proof B as B'. apply IsInBounds_iff in B'.
  rewrite texel_inside
    by (cbn [with_calls renderTexture tex_width tex_height]; lia).
  cbn [with_calls renderTexture tex_calls].
  now apply render_calls_texel_of.
Qed.

(** In the image of [main] the centre of the window, [(400, 300)], shows the
    red sphere, and the pixel fifty rows further, which is drawn for the
    centred pixel [(0, -50)], the background. *)
Lemma render_image_witness :
  texel (renderTexture (fst (render (main_canvas, Raytracer_new)))) 400 300
  = Some (mkColor 255 0 0 255)
  /\ texel (renderTexture (fst (render (main_canvas, Raytracer_new)))) 400 350
     = Some WHITE.
Proof.
  split.
  - rewrite (render_image main_canvas Raytracer_new 400 300) by reflexivity.
    vm_compute. reflexivity.
  - rewrite (render_image main_canvas Raytracer_new 400 350) by reflexivity.
    vm_compute. reflexivity.
Defined.

(** On a canvas of 4 by 3 pixels the loop draws 12 pixels. *)
Lemma render_writes_every_pixel_once_witness :
  pixel_writes
    (tex_calls (renderTexture
       (fst (render (Canvas_new 4 3 (of_int 1) (of_int 1) (of_int 1) WHITE,
                     Raytracer_new)))))
  = 12%nat.
Proof.
  rewrite (proj2 (proj2 (proj2 (proj2 (proj2
             (render_writes_every_pixel_once
                (Canvas_new 4 3 (of_int 1) (of_int 1) (of_int 1) WHITE)
                Raytracer_new ltac:(reflexivity) ltac:(reflexivity))))))).
  reflexivity.
Defined.

(** X16.  The image holds no colour of its own: every pixel of the canvas is,
    after the loop, the background or the colour of a sphere of the
    scene. *)
Theorem render_palette (canvas : Canvas) (raytracer : Raytracer) (px py : Z) :
  0 < CanvasWidth canvas -> 0 < CanvasHeight canvas ->
  tex_width (renderTexture canvas) = CanvasWidth canvas ->
  tex_height (renderTexture canvas) = CanvasHeight canvas ->
  IsInBounds canvas px py = true ->
  exists col,
    texel (renderTexture (fst (render (canvas, raytracer)))) px py = Some col
    /\ (col = GetBackground canvas
        \/ exists s, In s (spheres raytracer) /\ col = color s).
Proof.
  intros HW HH TW TH B. rewrite render_is_calls. cbn [fst].
  pose proof B as B'. apply IsInBounds_iff in B'.
  rewrite texel_inside
    by (cbn [with_calls renderTexture tex_width tex_height]; lia).
  cbn [with_calls renderTexture tex_calls].
  eexists. split; [now apply render_calls_texel_of|].
  unfold pixel_color, TraceRay.
  match goal with
  | |- context [closest raytracer ?o ?d ?a ?b] =>
      pose proof (closest_nearest o d a b raytracer) as N;
      unfold nearest_of in N;
      destruct (snd (closest raytracer o d a b)) as [s|]
  end.
  - right. exists s. split; [apply N | reflexivity].
  - now left.
Qed.

Lemma render_palette_witness :
  exists col,
    texel (renderTexture (fst (render (main_canvas, Raytracer_new)))) 0 599 = Some col
    /\ (col = GetBackground main_canvas
        \/ exists s, In s (spheres Raytracer_new) /\ col = color s).
Proof.
  apply (render_palette main_canvas Raytracer_new 0 599); reflexivity.
Defined.
